(** * LinearizedConvolution: a shallow embedding of
      [modules/linearized_convolution.py]

    The layer is a 1-D convolution (a subclass of the framework's [Conv1d])
    with a second, incremental forward mode that keeps a rolling buffer of the
    last [kernel_size] input frames and multiplies it by a reshaped
    ("linearized") form of the convolution weight, which it caches.

    Conventions of the embedding.
    - A tensor is a nested list: a 3-D tensor of shape [(B, T, C)] is a list of
      [B] rows, each a list of [T] frames, each a list of [C] scalars.
    - Scalars are the elements of a commutative semiring (class [Scalar], laws
      [ScalarLaws]); the code computes on floating-point numbers, whose
      rounding is not modelled: equalities below are equalities of the exact
      results.
    - A tensor is a value, and a change of the parameters is a change of
      values.  The one tensor of the module that can read the storage of
      another, the cached linearized weight, is treated in "The storage
      behind the cache".
    - A method is a function in the state-and-exception monad [M] over the
      layer object [Layer]; the state is returned also when the call raises,
      as the object survives the exception in Python.
    - The tensor primitives the module calls ([F.linear], [conv1d],
      [transpose], [view], [index_select], slicing and slice assignment)
      belong to the tensor library; they are written out here after the
      library's documentation, with [TensorError] for the errors the library
      raises on mismatched shapes and out-of-range indices. *)

From Stdlib Require Import List Arith PeanoNat Lia Bool ZArith Ring_theory.
Import ListNotations.

Set Implicit Arguments.

(** ** Scalars *)

Class Scalar (R : Type) : Type := {
  zero : R;
  one : R;
  add : R -> R -> R;
  mul : R -> R -> R
}.

Class ScalarLaws (R : Type) `{Scalar R} : Prop :=
  scalar_semiring : semi_ring_theory zero one add mul (@eq R).

#[export] Instance Z_Scalar : Scalar Z :=
  {| zero := 0%Z; one := 1%Z; add := Z.add; mul := Z.mul |}.

(** ** Exceptions and results *)

Inductive exn : Type :=
| InferenceOnly  (* RuntimeError('LinearizedConvolution only supports inference') *)
| TensorError.   (* an error raised inside a tensor primitive *)

Inductive result (A : Type) : Type :=
| Ok (a : A)
| Raise (e : exn).

Arguments Ok {A} a.
Arguments Raise {A} e.

Definition rbind {A B : Type} (r : result A) (f : A -> result B) : result B :=
  match r with
  | Ok a => f a
  | Raise e => Raise e
  end.

(** ** Tensors and the layer object *)

Definition Matrix (R : Type) : Type := list (list R).
Definition Tensor3 (R : Type) : Type := list (list (list R)).

(** The parameters a forward pre-hook may rewrite (weight normalisation
    recomputes [weight]). *)
Record Params (R : Type) : Type := mkParams {
  p_weight : Tensor3 R;
  p_bias : option (list R)
}.

(** [hook(module, input)] of the framework, restricted to what such a hook
    adjusts: the parameters.  A hook is given by the parameter values it
    leaves.  Whether it assigns new tensors (as weight normalisation does) or
    writes into the old ones shows only in a cached tensor that reads the
    storage of the weight (see [transposed_is_contiguous]); the properties
    of a filled cache under hooks are stated for the remaining shapes. *)
Definition pre_hook (R : Type) : Type := Tensor3 R -> Params R -> Params R.

(** The callbacks this class registers with [register_backward_hook]. *)
Inductive backward_hook : Type :=
| clear_linearized_weight_hook.   (* self._clear_linearized_weight *)

(** The attributes of a [LinearizedConvolution] object.  [kernel_size],
    [stride], [padding] and [dilation] are the first components of the
    framework's 1-tuples; [groups] is the framework's default 1, the weight
    then has shape [(out_channels, in_channels, kernel_size)]. *)
Record Layer (R : Type) : Type := mkLayer {
  in_channels : nat;
  out_channels : nat;
  kernel_size : nat;
  stride : nat;
  padding : nat;
  dilation : nat;
  weight : Tensor3 R;
  bias : option (list R);
  training : bool;
  _forward_pre_hooks : list (pre_hook R);
  _backward_hooks : list backward_hook;
  input_buffer : option (Tensor3 R);
  _linearized_weight : option (Matrix R)
}.

(** The keyword arguments of the constructor that the embedding covers;
    [__init__] passes them on to [Conv1d].  The framework's constructor also
    takes [groups]: it is left at its default 1 here, and a layer built with
    another value (its weight then has [in_channels / groups] input slices)
    is outside the embedding. *)
Record Kwargs : Type := mkKwargs {
  kw_stride : nat;
  kw_padding : nat;
  kw_dilation : nat;
  kw_bias : bool
}.

Definition default_kwargs : Kwargs :=
  {| kw_stride := 1; kw_padding := 0; kw_dilation := 1; kw_bias := true |}.

(** ** The state-and-exception monad of method calls *)

Definition M (R A : Type) : Type := Layer R -> result A * Layer R.

Definition ret {R A : Type} (a : A) : M R A := fun self => (Ok a, self).

Definition bind {R A B : Type} (m : M R A) (f : A -> M R B) : M R B :=
  fun self =>
    match m self with
    | (Ok a, self') => f a self'
    | (Raise e, self') => (Raise e, self')
    end.

Definition raise {R A : Type} (e : exn) : M R A := fun self => (Raise e, self).

Definition gets {R A : Type} (f : Layer R -> A) : M R A :=
  fun self => (Ok (f self), self).

Definition modify {R : Type} (f : Layer R -> Layer R) : M R unit :=
  fun self => (Ok tt, f self).

Definition lift {R A : Type} (r : result A) : M R A := fun self => (r, self).

Declare Scope method_scope.
Delimit Scope method_scope with method.
Notation "x <- m ;; k" := (bind m (fun x => k))
  (at level 61, m at next level, right associativity) : method_scope.
Notation "m ;; k" := (bind m (fun _ => k))
  (at level 61, right associativity) : method_scope.
Open Scope method_scope.

(** Attribute assignment. *)
Definition set_input_buffer {R : Type} (b : option (Tensor3 R)) (l : Layer R) : Layer R :=
  {| in_channels := in_channels l; out_channels := out_channels l;
     kernel_size := kernel_size l; stride := stride l; padding := padding l;
     dilation := dilation l; weight := weight l; bias := bias l;
     training := training l; _forward_pre_hooks := _forward_pre_hooks l;
     _backward_hooks := _backward_hooks l;
     input_buffer := b; _linearized_weight := _linearized_weight l |}.

Definition set_linearized_weight {R : Type} (c : option (Matrix R)) (l : Layer R) : Layer R :=
  {| in_channels := in_channels l; out_channels := out_channels l;
     kernel_size := kernel_size l; stride := stride l; padding := padding l;
     dilation := dilation l; weight := weight l; bias := bias l;
     training := training l; _forward_pre_hooks := _forward_pre_hooks l;
     _backward_hooks := _backward_hooks l;
     input_buffer := input_buffer l; _linearized_weight := c |}.

Definition set_params {R : Type} (p : Params R) (l : Layer R) : Layer R :=
  {| in_channels := in_channels l; out_channels := out_channels l;
     kernel_size := kernel_size l; stride := stride l; padding := padding l;
     dilation := dilation l; weight := p_weight p; bias := p_bias p;
     training := training l; _forward_pre_hooks := _forward_pre_hooks l;
     _backward_hooks := _backward_hooks l;
     input_buffer := input_buffer l; _linearized_weight := _linearized_weight l |}.

Definition set_training {R : Type} (mode : bool) (l : Layer R) : Layer R :=
  {| in_channels := in_channels l; out_channels := out_channels l;
     kernel_size := kernel_size l; stride := stride l; padding := padding l;
     dilation := dilation l; weight := weight l; bias := bias l;
     training := mode; _forward_pre_hooks := _forward_pre_hooks l;
     _backward_hooks := _backward_hooks l;
     input_buffer := input_buffer l; _linearized_weight := _linearized_weight l |}.

Definition add_backward_hook {R : Type} (h : backward_hook) (l : Layer R) : Layer R :=
  {| in_channels := in_channels l; out_channels := out_channels l;
     kernel_size := kernel_size l; stride := stride l; padding := padding l;
     dilation := dilation l; weight := weight l; bias := bias l;
     training := training l; _forward_pre_hooks := _forward_pre_hooks l;
     _backward_hooks := _backward_hooks l ++ [h];
     input_buffer := input_buffer l; _linearized_weight := _linearized_weight l |}.

Section TensorLibrary.
Context {R : Type} `{Scalar R}.

(** ** Tensor primitives (the tensor library's, after its documentation) *)

(** [x.size(0)], [x.size(1)], [x.size(2)]. *)
Definition size0 {A : Type} (x : list A) : nat := length x.
Definition size1 {A : Type} (x : list (list A)) : nat := length (hd [] x).
Definition size2 {A : Type} (x : list (list (list A))) : nat :=
  length (hd [] (hd [] x)).

(** A nested list is the tensor of that shape when it is rectangular. *)
Definition shape2 {A : Type} (r c : nat) (m : list (list A)) : Prop :=
  length m = r /\ Forall (fun row => length row = c) m.

Definition shape3 {A : Type} (b t c : nat) (x : list (list (list A))) : Prop :=
  length x = b /\ Forall (shape2 t c) x.

Definition map2 {A B C : Type} (f : A -> B -> C) (l1 : list A) (l2 : list B) : list C :=
  map (fun ab => f (fst ab) (snd ab)) (combine l1 l2).

Definition rsum (l : list R) : R := fold_right add zero l.

Definition dot (u v : list R) : R := rsum (map2 mul u v).

(** Transposition of a matrix, and [x.transpose(1, 2)] of a 3-D tensor. *)
Definition transpose2 (m : Matrix R) : Matrix R :=
  map (fun j => map (fun row => nth j row zero) m) (seq 0 (size1 m)).

Definition transpose12 (x : Tensor3 R) : Tensor3 R := map transpose2 x.

(** The rows of a weight paired with their bias entries ([None] with
    [bias=False]). *)
Definition with_bias {A : Type} (w : list A) (b : option (list R)) : list (A * option R) :=
  match b with
  | None => map (fun w_o => (w_o, None)) w
  | Some bv => map2 (fun w_o b_o => (w_o, Some b_o)) w bv
  end.

Definition add_bias (v : R) (b_o : option R) : R :=
  match b_o with
  | None => v
  | Some c => add v c
  end.

Definition bias_fits {A : Type} (w : list A) (b : option (list R)) : bool :=
  match b with
  | None => true
  | Some bv => length bv =? length w
  end.

(** [F.linear] on one feature vector: [v W^T + b]. *)
Definition affine (w : Matrix R) (b : option (list R)) (v : list R) : list R :=
  map (fun wb => add_bias (dot v (fst wb)) (snd wb)) (with_bias w b).

(** [F.linear(input, weight, bias)] for a 2-D input [(B, N)] and a weight
    [(O, N)]. *)
Definition F_linear (input : Matrix R) (w : Matrix R) (b : option (list R)) : result (Matrix R) :=
  if forallb (fun v => length v =? size1 w) input && bias_fits w b
  then Ok (map (affine w b) input)
  else Raise TensorError.

(** [F.linear] for a 3-D input [(B, T, N)]: the projection of every frame. *)
Definition F_linear3 (input : Tensor3 R) (w : Matrix R) (b : option (list R)) : result (Tensor3 R) :=
  if forallb (forallb (fun v => length v =? size1 w)) input && bias_fits w b
  then Ok (map (map (affine w b)) input)
  else Raise TensorError.

(** [w.squeeze(2)] followed by its use as the 2-D weight of [F.linear]:
    the last dimension is dropped when it has size 1; otherwise the tensor
    stays 3-D and [F.linear] rejects it. *)
Definition squeeze2 (w : Tensor3 R) : result (Matrix R) :=
  if size2 w =? 1
  then Ok (map (map (fun ks => hd zero ks)) w)
  else Raise TensorError.

(** The 1-D convolution primitive [conv1d(x, weight, bias, stride, padding,
    dilation)] on [x : (B, C, L)] and [weight : (O, C, K)]: zero padding of
    [padding] positions on both sides, then
    [out[b][o][t] = bias[o] + sum_c sum_k weight[o][c][k] * xpad[b][c][t*stride + k*dilation]]
    for [t < (L + 2*padding - dilation*(K-1) - 1) / stride + 1]. *)
Definition pad_zeros (p : nat) (row : list R) : list R :=
  repeat zero p ++ row ++ repeat zero p.

Definition conv_out_len (L p d k s : nat) : nat :=
  (L + 2 * p - d * (k - 1) - 1) / s + 1.

Definition window (s d k t : nat) (xc : list R) : list R :=
  map (fun j => nth (t * s + j * d) xc zero) (seq 0 k).

Definition conv_at (s d t : nat) (xb : Matrix R) (w_o : Matrix R) : R :=
  rsum (map2 (fun wc xc => dot wc (window s d (length wc) t xc)) w_o xb).

Definition conv1d (x : Tensor3 R) (w : Tensor3 R) (b : option (list R))
    (s p d : nat) : result (Tensor3 R) :=
  let k := size2 w in
  let L := size2 x in
  if forallb (fun xb => length xb =? size1 w) x
     && bias_fits w b
     && (d * (k - 1) + 1 <=? L + 2 * p)
     && (1 <=? s)
  then Ok (map (fun xb =>
             let xp := map (pad_zeros p) xb in
             map (fun wb =>
                    map (fun t => add_bias (conv_at s d t xp (fst wb)) (snd wb))
                        (seq 0 (conv_out_len L p d k s)))
                 (with_bias w b))
             x)
  else Raise TensorError.

(** [chunks n k flat]: the [k] consecutive blocks of [n] elements of [flat];
    the row-major reading of a contiguous storage as a [(k, n)] matrix. *)
Fixpoint chunks {A : Type} (n k : nat) (flat : list A) : list (list A) :=
  match k with
  | 0 => []
  | S k' => firstn n flat :: chunks n k' (skipn n flat)
  end.

(** The row-major storage of a contiguous 3-D tensor. *)
Definition contiguous {A : Type} (x : list (list (list A))) : list A :=
  concat (map (@concat A) x).

(** [t.view(r, c)] of a contiguous tensor. *)
Definition view_as {A : Type} (r c : nat) (flat : list A) : result (list (list A)) :=
  if r * c =? length flat
  then Ok (chunks c r flat)
  else Raise TensorError.

(** [t.view(bsz, -1)] of a contiguous tensor: the second size is inferred. *)
Definition view_rows {A : Type} (bsz : nat) (flat : list A) : result (list (list A)) :=
  if (0 <? bsz) && (length flat mod bsz =? 0)
  then Ok (chunks (length flat / bsz) bsz flat)
  else Raise TensorError.

(** [input.new(b, k, c)] followed by [zero_()]. *)
Definition zeros (b k c : nat) : Tensor3 R := repeat (repeat (repeat zero c) k) b.

(** [x[:, -1, :]]: the last frame of every row. *)
Definition select_last (x : Tensor3 R) : result (Matrix R) :=
  if forallb (fun row => 0 <? length row) x
  then Ok (map (fun row => last row []) x)
  else Raise TensorError.

(** Broadcasting of one dimension: a size-1 dimension is repeated. *)
Definition broadcast {A : Type} (n : nat) (l : list A) : option (list A) :=
  if length l =? n then Some l
  else match l with
       | [a] => Some (repeat a n)
       | _ => None
       end.

Fixpoint broadcast_all {A : Type} (n : nat) (ls : list (list A)) : option (list (list A)) :=
  match ls with
  | [] => Some []
  | l :: ls' =>
      match broadcast n l, broadcast_all n ls' with
      | Some l', Some ls'' => Some (l' :: ls'')
      | _, _ => None
      end
  end.

(** [buf[:, -1, :] = frames]: the last frame of every row of the buffer is
    overwritten, [frames] being broadcast to the shape of the slice. *)
Definition assign_last (buf : Tensor3 R) (frames : Matrix R) : result (Tensor3 R) :=
  match broadcast_all (size2 buf) frames with
  | Some fr =>
      match broadcast (size0 buf) fr with
      | Some fr' => Ok (map2 (fun row f => firstn (length row - 1) row ++ [f]) buf fr')
      | None => Raise TensorError
      end
  | None => Raise TensorError
  end.

(** [buf[:, :-1, :] = buf[:, 1:, :].clone()]: every frame but the first moves
    one position toward the front; the last position keeps its content. *)
Definition shift_row {A : Type} (row : list A) : list A :=
  skipn 1 row ++ skipn (length row - 1) row.

Definition shift_buffer (buf : Tensor3 R) : Tensor3 R := map (@shift_row (list R)) buf.

(** [x[:, :-p, :]] for [p > 0], with Python's slice semantics. *)
Definition drop_last_steps {A : Type} (p : nat) (x : list (list A)) : list (list A) :=
  map (fun row => firstn (length row - p) row) x.

(** [buf.index_select(0, order)]. *)
Definition index_select0 {A : Type} (buf : list (list A)) (order : list nat) : result (list (list A)) :=
  if forallb (fun i => i <? length buf) order
  then Ok (map (fun i => nth i buf []) order)
  else Raise TensorError.

End TensorLibrary.

Section LinearizedConvolution.
Context {R : Type} `{Scalar R}.

(** ** The methods of [LinearizedConvolution] *)

(** [clear_buffer] (lines 69-70). *)
Definition clear_buffer : M R unit :=
  modify (set_input_buffer None).

(** [_clear_linearized_weight] (lines 84-85); its arguments are ignored. *)
Definition _clear_linearized_weight : M R unit :=
  modify (set_linearized_weight None).

(** [Conv1d.__init__] of the framework: the attributes of a fresh
    convolution.  A new module is in training mode and has no hook; the
    framework's initialiser fills the parameters, [w0] and [b0] give the
    values it assigns. *)
Definition Conv1d_init (cin cout k : nat) (kwargs : Kwargs)
    (w0 : nat -> nat -> nat -> R) (b0 : nat -> R) : Layer R :=
  {| in_channels := cin; out_channels := cout; kernel_size := k;
     stride := kw_stride kwargs; padding := kw_padding kwargs;
     dilation := kw_dilation kwargs;
     weight := map (fun o => map (fun c => map (fun j => w0 o c j) (seq 0 k))
                                 (seq 0 cin))
                   (seq 0 cout);
     bias := if kw_bias kwargs then Some (map b0 (seq 0 cout)) else None;
     training := true;
     _forward_pre_hooks := [];
     _backward_hooks := [];
     input_buffer := None;
     _linearized_weight := None |}.

(** [__init__] (lines 13-18). *)
Definition __init__ (cin cout k : nat) (kwargs : Kwargs)
    (w0 : nat -> nat -> nat -> R) (b0 : nat -> R) : Layer R :=
  let self := Conv1d_init cin cout k kwargs w0 b0 in
  let self := snd (clear_buffer self) in
  let self := set_linearized_weight None self in
  add_backward_hook clear_linearized_weight_hook self.

(** The two branches of [forward]: lines 22-24, where [super().forward(x)]
    is the convolution primitive on the layer's weight, bias, stride,
    padding and dilation, and line 26. *)
Definition forward_conv (x : Tensor3 R) : M R (Tensor3 R) :=
  w <- gets (@weight R) ;;
  b <- gets (@bias R) ;;
  s <- gets (@stride R) ;;
  p <- gets (@padding R) ;;
  d <- gets (@dilation R) ;;
  let x := transpose12 x in
  x <- lift (conv1d x w b s p d) ;;
  let x := transpose12 x in
  ret x.

Definition forward_linear (x : Tensor3 R) : M R (Tensor3 R) :=
  w <- gets (@weight R) ;;
  b <- gets (@bias R) ;;
  w2 <- lift (squeeze2 w) ;;
  lift (F_linear3 x w2 b).

(** [forward] (lines 20-27). *)
Definition forward (x : Tensor3 R) : M R (Tensor3 R) :=
  k <- gets (@kernel_size R) ;;
  if 1 <? k then forward_conv x else forward_linear x.

(** [remove_future_timesteps] (lines 29-33). *)
Definition remove_future_timesteps (x : Tensor3 R) : M R (Tensor3 R) :=
  k <- gets (@kernel_size R) ;;
  p <- gets (@padding R) ;;
  if (1 <? k) && (0 <? p) then ret (drop_last_steps p x) else ret x.

(** The reshaping of lines 78-81:
    [weight.transpose(1, 2).contiguous().view(nout, kw * nin)]. *)
Definition linearize (w : Tensor3 R) : result (Matrix R) :=
  let nout := size0 w in
  let nin := size1 w in
  let kw := size2 w in
  view_as nout (kw * nin) (contiguous (transpose12 w)).

(** [_get_linearized_weight] (lines 76-82). *)
Definition _get_linearized_weight : M R (Matrix R) :=
  c <- gets (@_linearized_weight R) ;;
  match c with
  | Some lw => ret lw
  | None =>
      w <- gets (@weight R) ;;
      lw <- lift (linearize w) ;;
      modify (set_linearized_weight (Some lw)) ;;
      ret lw
  end.

(** The loop of lines 47-48 over the registered forward pre-hooks, each
    applied as the change of parameter values it makes (see [pre_hook]). *)
Definition run_forward_pre_hooks (input : Tensor3 R) : M R unit :=
  modify (fun self =>
    set_params
      (fold_left (fun p hook => hook input p) (_forward_pre_hooks self)
                 {| p_weight := weight self; p_bias := bias self |})
      self).

(** Lines 50-67 of [incremental_forward]: the linearized weight, the update
    of the rolling buffer and the projection. *)
Definition incremental_body (input : Tensor3 R) : M R (Tensor3 R) :=
  w <- _get_linearized_weight ;;
  kw <- gets (@kernel_size R) ;;
  let bsz := size0 input in
  input' <- (if 1 <? kw then
               buf <- gets (@input_buffer R) ;;
               let buf1 := match buf with
                           | None => zeros bsz kw (size2 input)
                           | Some b => shift_buffer b
                           end in
               modify (set_input_buffer (Some buf1)) ;;
               fr <- lift (select_last input) ;;
               buf2 <- lift (assign_last buf1 fr) ;;
               modify (set_input_buffer (Some buf2)) ;;
               ret buf2
             else ret input) ;;
  b <- gets (@bias R) ;;
  flat <- lift (view_rows bsz (contiguous input')) ;;
  output <- lift (F_linear flat w b) ;;
  ret (map (fun o => [o]) output).

(** [incremental_forward] (lines 35-67): the guard of lines 43-44, the
    forward pre-hooks, then the body. *)
Definition incremental_forward (input : Tensor3 R) : M R (Tensor3 R) :=
  tr <- gets (@training R) ;;
  if tr then raise InferenceOnly
  else
    run_forward_pre_hooks input ;;
    incremental_body input.

(** [reorder_buffer] (lines 72-74). *)
Definition reorder_buffer (new_order : list nat) : M R unit :=
  buf <- gets (@input_buffer R) ;;
  match buf with
  | Some b =>
      b' <- lift (index_select0 b new_order) ;;
      modify (set_input_buffer (Some b'))
  | None => ret tt
  end.

(** ** The framework around the layer *)

(** [module.train(mode)]; [module.eval()] is [train false]. *)
Definition train (mode : bool) : M R unit := modify (set_training mode).

(** Dispatch of one registered backward hook. *)
Definition call_backward_hook (h : backward_hook) : M R unit :=
  match h with
  | clear_linearized_weight_hook => _clear_linearized_weight
  end.

(** A backward pass through the module: the framework calls the registered
    backward hooks in registration order. *)
Definition backward : M R unit :=
  hooks <- gets (@_backward_hooks R) ;;
  fold_right (fun h k => call_backward_hook h ;; k) (ret tt) hooks.

(** A change of the parameters: the weight and the bias get new values and
    no other attribute is touched.  This is an assignment of new tensors
    ([module.weight = ...], [weight.data = ...]) on any layer, and an update
    in place (an optimizer step) on a layer whose cached tensor, if any,
    holds a copy of the weight's entries.  A cached tensor that reads the
    storage of the weight sees an update in place: that case is
    [update_in_place] below. *)
Definition update_parameters (w : Tensor3 R) (b : option (list R)) : M R unit :=
  modify (set_params {| p_weight := w; p_bias := b |}).

(** The calls a client makes on a layer, and their execution in sequence. *)
Inductive call : Type :=
| Call_forward (x : Tensor3 R)
| Call_remove_future_timesteps (x : Tensor3 R)
| Call_incremental_forward (input : Tensor3 R)
| Call_clear_buffer
| Call_reorder_buffer (new_order : list nat)
| Call_train (mode : bool)
| Call_backward
| Call_update_parameters (w : Tensor3 R) (b : option (list R)).

Definition run_call (c : call) (self : Layer R) : Layer R :=
  match c with
  | Call_forward x => snd (forward x self)
  | Call_remove_future_timesteps x => snd (remove_future_timesteps x self)
  | Call_incremental_forward input => snd (incremental_forward input self)
  | Call_clear_buffer => snd (clear_buffer self)
  | Call_reorder_buffer new_order => snd (reorder_buffer new_order self)
  | Call_train mode => snd (train mode self)
  | Call_backward => snd (backward self)
  | Call_update_parameters w b => snd (update_parameters w b self)
  end.

Definition run_calls (cs : list call) (self : Layer R) : Layer R :=
  fold_left (fun l c => run_call c l) cs self.

(** [incremental_forward] on the frames of a list, one call after the other:
    the results of the calls and the final state. *)
Fixpoint incremental_run (inputs : list (Tensor3 R)) (self : Layer R)
    : list (result (Tensor3 R)) * Layer R :=
  match inputs with
  | [] => ([], self)
  | input :: rest =>
      let (r, self') := incremental_forward input self in
      let (rs, self'') := incremental_run rest self' in
      (r :: rs, self'')
  end.

(** ** The storage behind the cache *)

(** [contiguous()] (line 80) returns the tensor it is called on when that is
    already contiguous in memory, and [view] (line 81) never copies.  The
    transposed weight has shape [(nout, kw, nin)] over the storage of a
    [(nout, nin, kw)] tensor; it is contiguous exactly when the transposition
    moves no entry, that is when [nin = 1] or [kw = 1].  The cached tensor
    then reads the storage of the weight itself; in every other shape it
    reads a copy. *)
Definition transposed_is_contiguous (w : Tensor3 R) : bool :=
  (size1 w =? 1) || (size2 w =? 1).








(** ** Vocabulary of the properties *)

(** The linearized weight as the specification words it: the kernel and
    input-channel axes of every output channel's slice are transposed, then
    the slice is flattened. *)
Definition linearized_spec (w : Tensor3 R) : Matrix R :=
  map (fun w_o => concat (transpose2 w_o)) w.

(** The class invariant: what [__init__] establishes and no method breaks.
    All sizes are positive, the weight has shape
    [(out_channels, in_channels, kernel_size)], the bias (if any) has
    [out_channels] entries, and no forward pre-hook is registered (this class
    registers none). *)
Definition well_formed (l : Layer R) : Prop :=
  1 <= in_channels l /\ 1 <= out_channels l /\ 1 <= kernel_size l /\
  1 <= stride l /\ 1 <= dilation l /\
  shape3 (out_channels l) (in_channels l) (kernel_size l) (weight l) /\
  (forall bv, bias l = Some bv -> length bv = out_channels l) /\
  _forward_pre_hooks l = [].

(** The cache, when filled, holds the linearization of the current weight. *)
Definition cache_coherent (l : Layer R) : Prop :=
  match _linearized_weight l with
  | None => True
  | Some lw => linearize (weight l) = Ok lw
  end.

(** [x[:, t:t+1, :]]: the single-frame input of time step [t]. *)
Definition frame_at (t : nat) (x : Tensor3 R) : Tensor3 R :=
  map (fun row => firstn 1 (skipn t row)) x.

Definition frames (x : Tensor3 R) : list (Tensor3 R) :=
  map (fun t => frame_at t x) (seq 0 (size1 x)).

(** [torch.cat(outs, 1)]: concatenation along the time axis. *)
Definition cat_time (outs : list (Tensor3 R)) : Tensor3 R :=
  map (fun b => concat (map (fun o => nth b o []) outs))
      (seq 0 (size0 (hd [] outs))).

Fixpoint all_ok {A : Type} (rs : list (result A)) : result (list A) :=
  match rs with
  | [] => Ok []
  | r :: rs' => rbind r (fun a => rbind (all_ok rs') (fun l => Ok (a :: l)))
  end.

(** Incremental decoding of a whole sequence: one [incremental_forward] per
    time step, the outputs concatenated along the time axis. *)
Definition incremental_decode (x : Tensor3 R) : M R (Tensor3 R) :=
  fun self =>
    let (rs, self') := incremental_run (frames x) self in
    (rbind (all_ok rs) (fun outs => Ok (cat_time outs)), self').

(** [remove_future_timesteps(forward(x))]. *)
Definition causal_forward (x : Tensor3 R) : M R (Tensor3 R) :=
  y <- forward x ;;
  remove_future_timesteps y.

(** The last frame of every row of an input, as a one-frame input. *)
Definition last_frame_only (input : Tensor3 R) : Tensor3 R :=
  map (fun row => [last row []]) input.

(** The rolling window over the history [fs] of one row: the last
    [k] entries of [k] zero frames followed by the frames fed so far. *)
Definition recent_frames (k c : nat) (fs : list (list R)) : list (list R) :=
  skipn (length fs) (repeat (repeat zero c) k ++ fs).

(** The frames row [i] has been fed by the calls on [inputs]: the last frame
    of row [i] of each input, oldest first. *)
Definition history (i : nat) (inputs : list (Tensor3 R)) : list (list R) :=
  map (fun input => last (nth i input []) []) inputs.

(** The buffer that holds, for each of [b] rows, the most recent [k] frames
    fed by the calls on [inputs], zero frames in front while fewer were fed. *)
Definition recent_buffer (b k c : nat) (inputs : list (Tensor3 R)) : Tensor3 R :=
  map (fun i => recent_frames k c (history i inputs)) (seq 0 b).

(** An input of [b] rows of at least one frame of [c] channels. *)
Definition frames_input (b c : nat) (input : Tensor3 R) : Prop :=
  exists t, 1 <= t /\ shape3 b t c input.

(** One update of the rolling buffer: every row drops its oldest frame and
    takes the last frame of the matching input row as its newest. *)
Definition next_buffer (buf input : Tensor3 R) : Tensor3 R :=
  map2 (fun brow row => skipn 1 brow ++ [last row []]) buf input.

(** The buffer a call starts from: the stored one, or zeros when none is
    allocated. *)
Definition buffer_or_zeros (b c : nat) (l : Layer R) : Tensor3 R :=
  match input_buffer l with
  | Some buf => buf
  | None => zeros b (kernel_size l) c
  end.

Definition buffer_fits (b c : nat) (l : Layer R) : Prop :=
  match input_buffer l with
  | Some buf => shape3 b (kernel_size l) c buf
  | None => True
  end.

(** The linearized weight a call is served: the cached one, or the
    linearization of the current weight when the cache is empty. *)
Definition served_weight (l : Layer R) : Matrix R :=
  match _linearized_weight l with
  | Some lw => lw
  | None => linearized_spec (weight l)
  end.

(** The layer with its two pieces of incremental state (buffer and cache)
    blanked: what is left are the configuration, the parameters, the mode
    and the hooks. *)
Definition params_of (l : Layer R) : Layer R :=
  set_input_buffer None (set_linearized_weight None l).

(** [l] is [l0] up to buffer and cache, with a coherent cache and no
    forward pre-hook. *)
Definition tracks (l0 l : Layer R) : Prop :=
  params_of l = params_of l0 /\ cache_coherent l /\ _forward_pre_hooks l = [].

(** Every state a computation can end in is related to the state it
    started from. *)
Definition steps_in {A : Type} (Rel : Layer R -> Layer R -> Prop) (m : M R A) : Prop :=
  forall l, Rel l (snd (m l)).

(** A result of the tensor library carries no error but [TensorError], and
    a computation built from such results raises no other error. *)
Definition tensor_only {A : Type} (r : result A) : Prop :=
  forall e, r = Raise e -> e = TensorError.

Definition raises_tensor_only {A : Type} (m : M R A) : Prop :=
  forall l, tensor_only (fst (m l)).

(** Between two states of one call that leaves the weight alone: the cache
    is what it was, or empty, or the linearization of the weight. *)
Definition cache_step (l l' : Layer R) : Prop :=
  weight l' = weight l /\
  (_linearized_weight l' = _linearized_weight l \/
   _linearized_weight l' = None \/
   exists lw, _linearized_weight l' = Some lw /\ linearize (weight l') = Ok lw).

(** Calls that may ask for the linearized weight. *)
Definition obtains_linearized_weight (c : call) : bool :=
  match c with
  | Call_incremental_forward _ => true
  | _ => false
  end.

(** Calls that leave the parameters and the mode of the layer alone. *)
Definition keeps_parameters (c : call) : bool :=
  match c with
  | Call_train _ | Call_update_parameters _ _ => false
  | _ => true
  end.

(** The rows of a tensor picked by a list of indices: the value of
    [index_select(0, order)] when it succeeds. *)
Definition select_rows {A : Type} (order : list nat) (y : list (list A)) : list (list A) :=
  map (fun i => nth i y []) order.

(** The parameters the forward pre-hooks leave when they run on [input]. *)
Definition hooked_params (input : Tensor3 R) (l : Layer R) : Params R :=
  fold_left (fun p hook => hook input p) (_forward_pre_hooks l)
            {| p_weight := weight l; p_bias := bias l |}.

(** Between two states of one call that leaves the parameters alone: the
    cache is what it was, or was empty and now holds the linearization of the
    weight. *)
Definition cache_fill (l l' : Layer R) : Prop :=
  weight l' = weight l /\ bias l' = bias l /\
  (_linearized_weight l' = _linearized_weight l \/
   (_linearized_weight l = None /\
    exists lw, _linearized_weight l' = Some lw /\ linearize (weight l) = Ok lw)).

Definition is_backward (c : call) : bool :=
  match c with
  | Call_backward => true
  | _ => false
  end.

Definition is_update (c : call) : bool :=
  match c with
  | Call_update_parameters _ _ => true
  | _ => false
  end.

End LinearizedConvolution.

(** ** Example layers and inputs (integer scalars) *)

Definition example_kernel3 : Layer Z :=
  snd (train false
         (__init__ 1 1 3 (mkKwargs 1 2 1 true)
                   (fun _ _ k => Z.of_nat (k + 1)) (fun _ => 0%Z))).

Definition example_two_channels : Layer Z :=
  snd (train false
         (__init__ 2 2 2 (mkKwargs 1 1 1 true)
                   (fun o c k => Z.of_nat (o * 4 + c * 2 + k + 1))
                   (fun o => Z.of_nat (o + 5)))).

Definition example_stride2 : Layer Z :=
  snd (train false
         (__init__ 1 1 2 (mkKwargs 2 1 1 true)
                   (fun _ _ _ => 1%Z) (fun _ => 0%Z))).

Definition example_kernel1 : Layer Z :=
  snd (train false
         (__init__ 2 2 1 (mkKwargs 1 0 1 true)
                   (fun o c _ => Z.of_nat (o * 2 + c + 1))
                   (fun o => Z.of_nat (o + 5)))).

Definition example_kernel1_padded : Layer Z :=
  snd (train false
         (__init__ 1 1 1 (mkKwargs 1 1 1 true)
                   (fun _ _ _ => 1%Z) (fun _ => 0%Z))).

Definition example_same_padding : Layer Z :=
  snd (train false
         (__init__ 1 1 3 (mkKwargs 1 1 1 true)
                   (fun _ _ k => Z.of_nat (k + 1)) (fun _ => 0%Z))).

(** A layer with a forward pre-hook that doubles the weight. *)
Definition example_hooked : Layer Z :=
  {| in_channels := 1; out_channels := 1; kernel_size := 3;
     stride := 1; padding := 2; dilation := 1;
     weight := [[[1; 2; 3]]]%Z; bias := None;
     training := false;
     _forward_pre_hooks :=
       [fun _ p => {| p_weight := map (map (map (Z.mul 2))) (p_weight p);
                      p_bias := p_bias p |}];
     _backward_hooks := [clear_linearized_weight_hook];
     input_buffer := None;
     _linearized_weight := None |}.

(** A two-channel layer with the same hook and a filled cache. *)
Definition example_hooked_cached : Layer Z :=
  {| in_channels := 2; out_channels := 2; kernel_size := 2;
     stride := 1; padding := 1; dilation := 1;
     weight := [[[1; 2]; [3; 4]]; [[5; 6]; [7; 8]]]%Z; bias := None;
     training := false;
     _forward_pre_hooks :=
       [fun _ p => {| p_weight := map (map (map (Z.mul 2))) (p_weight p);
                      p_bias := p_bias p |}];
     _backward_hooks := [clear_linearized_weight_hook];
     input_buffer := None;
     _linearized_weight := Some [[1; 3; 2; 4]; [5; 7; 6; 8]]%Z |}.

Definition example_sequence : Tensor3 Z := [[[1]; [2]; [3]; [4]]]%Z.

Definition example_batch : Tensor3 Z := [[[1; 2]; [5; 6]]; [[3; 4]; [7; 8]]]%Z.

(** The two-channel layer after one incremental step on [example_batch]. *)
Definition example_buffered : Layer Z :=
  snd (incremental_forward example_batch example_two_channels).

(** * Properties *)

(** ** Lists, indices and sums *)

Section ListFacts.
Context {A B C : Type}.

Lemma map_seq_nth (f : A -> B) (l : list A) (d : A) :
  map f l = map (fun i => f (nth i l d)) (seq 0 (length l)).
Proof.
  induction l as [|a l IH]; simpl; [reflexivity|].
  f_equal. rewrite <- seq_shift, map_map. exact IH.
Qed.

Lemma nth_map_seq (f : nat -> A) (n i : nat) (d : A) :
  i < n -> nth i (map f (seq 0 n)) d = f i.
Proof.
  intros Hi. rewrite (nth_indep _ d (f 0)) by (rewrite length_map, length_seq; exact Hi).
  rewrite (map_nth f (seq 0 n) 0 i), seq_nth by exact Hi. reflexivity.
Qed.

Lemma nth_map_in (f : A -> B) (l : list A) (i : nat) (d : A) (e : B) :
  i < length l -> nth i (map f l) e = f (nth i l d).
Proof.
  intros Hi. rewrite (nth_indep _ e (f d)) by (rewrite length_map; exact Hi).
  apply map_nth.
Qed.

Lemma map_const_seq (c : A) (s n : nat) :
  map (fun _ => c) (seq s n) = repeat c n.
Proof.
  revert s; induction n as [|n IH]; intros s; simpl; [reflexivity|].
  f_equal. apply IH.
Qed.

Lemma map2_nth (g : A -> B -> C) (l1 : list A) (l2 : list B) (n : nat) (d1 : A) (d2 : B) :
  length l1 = n -> length l2 = n ->
  map2 g l1 l2 = map (fun i => g (nth i l1 d1) (nth i l2 d2)) (seq 0 n).
Proof.
  revert l2 n; induction l1 as [|a l1 IH]; intros [|b l2] [|n] H1 H2;
    simpl in *; try discriminate; [reflexivity|].
  unfold map2 in *. simpl. f_equal.
  rewrite <- seq_shift, map_map. apply IH; lia.
Qed.

Lemma map2_map_l {D : Type} (g : A -> B -> C) (f : D -> A) (l1 : list D) (l2 : list B) :
  map2 g (map f l1) l2 = map2 (fun a b => g (f a) b) l1 l2.
Proof.
  revert l2; induction l1 as [|a l1 IH]; intros [|b l2]; simpl; try reflexivity.
  unfold map2 in *. simpl. f_equal. apply IH.
Qed.

Lemma map2_map_r {D : Type} (g : A -> B -> C) (f : D -> B) (l1 : list A) (l2 : list D) :
  map2 g l1 (map f l2) = map2 (fun a b => g a (f b)) l1 l2.
Proof.
  revert l2; induction l1 as [|a l1 IH]; intros [|b l2]; simpl; try reflexivity.
  unfold map2 in *. simpl. f_equal. apply IH.
Qed.

Lemma map2_ext_in (g g' : A -> B -> C) (l1 : list A) (l2 : list B) :
  (forall a b, In a l1 -> In b l2 -> g a b = g' a b) ->
  map2 g l1 l2 = map2 g' l1 l2.
Proof.
  intros Hg. unfold map2. apply map_ext_in. intros [a b] Hin. simpl.
  apply Hg; [apply (in_combine_l _ _ _ _ Hin)|apply (in_combine_r _ _ _ _ Hin)].
Qed.

Lemma length_map2 (g : A -> B -> C) (l1 : list A) (l2 : list B) :
  length (map2 g l1 l2) = Nat.min (length l1) (length l2).
Proof. unfold map2. rewrite length_map. apply length_combine. Qed.

Lemma firstn_seq_le (s n m : nat) : n <= m -> firstn n (seq s m) = seq s n.
Proof.
  revert s m; induction n as [|n IH]; intros s [|m] Hle; simpl; try reflexivity; [lia|].
  f_equal. apply IH. lia.
Qed.

Lemma concat_map_singleton (g : B -> A) (l : list B) :
  concat (map (fun j => [g j]) l) = map g l.
Proof. induction l as [|j l IH]; simpl; [reflexivity|]. f_equal. exact IH. Qed.

Lemma chunks_concat (n : nat) (l : list (list A)) :
  Forall (fun row => length row = n) l ->
  chunks n (length l) (concat l) = l.
Proof.
  induction 1 as [|row l Hrow _ IH]; simpl; [reflexivity|].
  rewrite firstn_app, skipn_app, Hrow, Nat.sub_diag, firstn_all2, skipn_all2 by lia.
  simpl. rewrite app_nil_r. f_equal. exact IH.
Qed.

Lemma length_concat_rect (n : nat) (l : list (list A)) :
  Forall (fun row => length row = n) l ->
  length (concat l) = length l * n.
Proof.
  induction 1 as [|row l Hrow _ IH]; simpl; [reflexivity|].
  rewrite length_app, IH, Hrow. reflexivity.
Qed.

End ListFacts.

Section Properties.
Context {R : Type} `{Scalar R}.

(** Unfolding of the monadic plumbing of a method body. *)
Ltac run_method :=
  unfold bind, gets, ret, raise, lift, modify in *; simpl in *.

(** Case analysis on every scrutinee of the goal, in order. *)
Ltac split_cases :=
  repeat match goal with
         | |- context [match ?x with _ => _ end] => destruct x eqn:?; simpl in *
         end.

(** The equations of the monad. *)
Lemma bind_gets {A B : Type} (f : Layer R -> A) (k : A -> M R B) (l : Layer R) :
  bind (gets f) k l = k (f l) l.
Proof. reflexivity. Qed.

Lemma bind_ret {A B : Type} (a : A) (k : A -> M R B) (l : Layer R) :
  bind (ret a) k l = k a l.
Proof. reflexivity. Qed.

Lemma bind_modify {B : Type} (f : Layer R -> Layer R) (k : unit -> M R B) (l : Layer R) :
  bind (modify f) k l = k tt (f l).
Proof. reflexivity. Qed.

Lemma bind_lift_Ok {A B : Type} (a : A) (k : A -> M R B) (l : Layer R) :
  bind (lift (Ok a)) k l = k a l.
Proof. reflexivity. Qed.

Lemma bind_lift_Raise {A B : Type} (e : exn) (k : A -> M R B) (l : Layer R) :
  bind (lift (Raise e)) k l = (Raise e, l).
Proof. reflexivity. Qed.

Lemma bind_assoc {A B C : Type} (m : M R A) (f : A -> M R B) (g : B -> M R C) :
  forall l, bind (bind m f) g l = bind m (fun a => bind (f a) g) l.
Proof.
  intros l. unfold bind. destruct (m l) as [[a|e] l1]; reflexivity.
Qed.

Lemma tensor_only_Ok {A : Type} (a : A) : tensor_only (Ok a).
Proof. intros e He; discriminate. Qed.

Lemma tensor_only_Raise {A : Type} : tensor_only (@Raise A TensorError).
Proof. intros e He; inversion He; reflexivity. Qed.

Ltac tensor_only_cases :=
  repeat match goal with
         | |- tensor_only (match ?x with _ => _ end) => destruct x
         end;
  first [apply tensor_only_Ok | apply tensor_only_Raise].

Lemma linearize_tensor_only (w : Tensor3 R) : tensor_only (linearize w).
Proof. unfold linearize, view_as. tensor_only_cases. Qed.

Lemma select_last_tensor_only (x : Tensor3 R) : tensor_only (select_last x).
Proof. unfold select_last. tensor_only_cases. Qed.

Lemma assign_last_tensor_only (buf : Tensor3 R) (fr : Matrix R) :
  tensor_only (assign_last buf fr).
Proof. unfold assign_last. tensor_only_cases. Qed.

Lemma view_rows_tensor_only {A : Type} (bsz : nat) (flat : list A) :
  tensor_only (view_rows bsz flat).
Proof. unfold view_rows. tensor_only_cases. Qed.

Lemma F_linear_tensor_only (x w : Matrix R) (b : option (list R)) :
  tensor_only (F_linear x w b).
Proof. unfold F_linear. tensor_only_cases. Qed.

Lemma raises_ret {A : Type} (a : A) : raises_tensor_only (ret (R:=R) a).
Proof. intros l. apply tensor_only_Ok. Qed.

Lemma raises_gets {A : Type} (f : Layer R -> A) : raises_tensor_only (gets f).
Proof. intros l. apply tensor_only_Ok. Qed.

Lemma raises_modify (f : Layer R -> Layer R) : raises_tensor_only (modify f).
Proof. intros l. apply tensor_only_Ok. Qed.

Lemma raises_lift {A : Type} (r : result A) :
  tensor_only r -> raises_tensor_only (lift (R:=R) r).
Proof. intros Hr l. exact Hr. Qed.

Lemma raises_bind {A B : Type} (m : M R A) (f : A -> M R B) :
  raises_tensor_only m -> (forall a, raises_tensor_only (f a)) ->
  raises_tensor_only (bind m f).
Proof.
  intros Hm Hf l. unfold bind. specialize (Hm l).
  destruct (m l) as [[a|e] l1]; simpl in *.
  - apply Hf.
  - intros e' He'. inversion He'; subst e'. apply Hm. reflexivity.
Qed.

Ltac raises_steps :=
  repeat first
    [ apply raises_ret | apply raises_gets | apply raises_modify
    | apply raises_lift;
      first [ apply linearize_tensor_only | apply select_last_tensor_only
            | apply assign_last_tensor_only | apply view_rows_tensor_only
            | apply F_linear_tensor_only ]
    | apply raises_bind; [|intros ?]
    | match goal with
      | |- raises_tensor_only (match ?x with _ => _ end) => destruct x
      end ].

Lemma get_linearized_weight_raises : raises_tensor_only _get_linearized_weight.
Proof. unfold _get_linearized_weight. raises_steps. Qed.

(** C4.  [incremental_forward] raises the inference-only error exactly when
    the layer is in training mode, and then before anything else happens:
    the layer object (buffer and cache included) is returned as it was. *)
Theorem incremental_forward_training_guard (l : Layer R) (input : Tensor3 R) :
  (fst (incremental_forward input l) = Raise InferenceOnly <-> training l = true) /\
  (training l = true -> incremental_forward input l = (Raise InferenceOnly, l)).
Proof.
  assert (Hrest : raises_tensor_only
            (run_forward_pre_hooks input ;; incremental_body input)).
  { unfold run_forward_pre_hooks, incremental_body.
    apply raises_bind; [apply raises_modify|intros _].
    apply raises_bind; [apply get_linearized_weight_raises|intros w].
    raises_steps. }
  unfold incremental_forward. rewrite bind_gets.
  destruct (training l) eqn:Htr.
  - split; [split|]; reflexivity.
  - split; [|discriminate].
    split; [|discriminate].
    intros He. apply (Hrest l) in He. discriminate.
Qed.

Lemma shape3_firstn (b t c n : nat) (x : Tensor3 R) :
  shape3 b t c x -> shape3 b (Nat.min n t) c (map (firstn n) x).
Proof.
  intros [Hb Hrows]. split; [rewrite length_map; exact Hb|].
  apply Forall_map. apply Forall_impl with (2 := Hrows).
  intros row [Ht Hc]. split.
  - rewrite length_firstn, Ht. reflexivity.
  - apply Forall_forall. intros f Hf.
    rewrite Forall_forall in Hc. apply Hc.
    rewrite <- (firstn_skipn n row). apply in_or_app. left. exact Hf.
Qed.

(** C5.  [remove_future_timesteps] leaves the layer object as it is.  With
    kernel width above 1 and positive padding, an input of shape [(b, t, c)]
    comes back with the first [t - padding] time steps of every row, the last
    [padding] ones removed; in every other case the input comes back
    unchanged. *)
Theorem remove_future_timesteps_spec (l : Layer R) (x : Tensor3 R) :
  snd (remove_future_timesteps x l) = l /\
  (1 < kernel_size l -> 0 < padding l ->
   forall b t c, shape3 b t c x ->
     fst (remove_future_timesteps x l) = Ok (map (firstn (t - padding l)) x) /\
     shape3 b (t - padding l) c (map (firstn (t - padding l)) x)) /\
  (kernel_size l <= 1 \/ padding l = 0 ->
   fst (remove_future_timesteps x l) = Ok x).
Proof.
  unfold remove_future_timesteps. rewrite !bind_gets.
  split; [|split].
  - destruct (_ && _); reflexivity.
  - intros Hk Hp b t c Hx.
    apply Nat.ltb_lt in Hk; apply Nat.ltb_lt in Hp. rewrite Hk, Hp. simpl.
    split.
    + f_equal. unfold drop_last_steps. apply map_ext_in.
      intros row Hrow. destruct Hx as [_ Hrows].
      rewrite Forall_forall in Hrows. destruct (Hrows row Hrow) as [Ht _].
      rewrite Ht. reflexivity.
    + replace (t - padding l) with (Nat.min (t - padding l) t) at 1 by lia.
      apply shape3_firstn. exact Hx.
  - intros [Hk|Hp].
    + apply Nat.ltb_ge in Hk. rewrite Hk. reflexivity.
    + rewrite Hp, andb_false_r. reflexivity.
Qed.

(** C7.  [reorder_buffer] does nothing when no buffer is allocated (in
    particular right after [clear_buffer] and right after construction);
    with a buffer and indices within its batch size, the new buffer has one
    row per index, row [i] being row [new_order[i]] of the old one, and no
    other attribute of the layer changes. *)
Theorem reorder_buffer_spec (l : Layer R) (new_order : list nat) :
  (input_buffer l = None -> reorder_buffer new_order l = (Ok tt, l)) /\
  reorder_buffer new_order (snd (clear_buffer l)) = (Ok tt, snd (clear_buffer l)) /\
  (forall cin cout k kwargs (w0 : nat -> nat -> nat -> R) (b0 : nat -> R),
     reorder_buffer new_order (__init__ cin cout k kwargs w0 b0)
     = (Ok tt, __init__ cin cout k kwargs w0 b0)) /\
  (forall buf, input_buffer l = Some buf ->
     Forall (fun i => i < length buf) new_order ->
     exists buf',
       reorder_buffer new_order l = (Ok tt, set_input_buffer (Some buf') l) /\
       length buf' = length new_order /\
       forall i, i < length new_order ->
         nth i buf' [] = nth (nth i new_order 0) buf []).
Proof.
  unfold reorder_buffer. rewrite !bind_gets.
  split; [|split; [|split]].
  - intros Hnone. rewrite Hnone. reflexivity.
  - reflexivity.
  - reflexivity.
  - intros buf Hbuf Hin. rewrite Hbuf.
    exists (map (fun i => nth i buf []) new_order).
    assert (Hsel : index_select0 buf new_order
                   = Ok (map (fun i => nth i buf []) new_order)).
    { unfold index_select0.
      replace (forallb (fun i => i <? length buf) new_order) with true; [reflexivity|].
      symmetry. apply forallb_forall. rewrite Forall_forall in Hin.
      intros i Hi. apply Nat.ltb_lt. apply Hin. exact Hi. }
    rewrite Hsel, bind_lift_Ok. split; [reflexivity|].
    split; [apply length_map|].
    intros i Hi. apply (nth_map_in (fun j => nth j buf []) new_order 0 []). exact Hi.
Qed.

(** *** Shapes *)

Lemma shape2_size1 {A : Type} (r c : nat) (m : list (list A)) :
  shape2 r c m -> 1 <= r -> size1 m = c.
Proof.
  intros [Hr Hrows] Hpos. destruct m as [|row m]; simpl in *; [lia|].
  inversion Hrows; assumption.
Qed.

Lemma shape2_nth {A : Type} (r c i : nat) (m : list (list A)) :
  shape2 r c m -> i < r -> length (nth i m []) = c.
Proof.
  intros [Hr Hrows] Hi. rewrite Forall_forall in Hrows.
  apply Hrows. apply nth_In. lia.
Qed.

Lemma shape3_nth {A : Type} (b t c i : nat) (x : list (list (list A))) :
  shape3 b t c x -> i < b -> shape2 t c (nth i x []).
Proof.
  intros [Hb Hrows] Hi. rewrite Forall_forall in Hrows.
  apply Hrows. apply nth_In. lia.
Qed.

Lemma shape3_size1 {A : Type} (b t c : nat) (x : list (list (list A))) :
  shape3 b t c x -> 1 <= b -> size1 x = t.
Proof.
  intros [Hb Hrows] Hpos. destruct x as [|row x]; simpl in *; [lia|].
  inversion Hrows as [|? ? [Ht _] _]; assumption.
Qed.

Lemma shape3_size2 {A : Type} (b t c : nat) (x : list (list (list A))) :
  shape3 b t c x -> 1 <= b -> 1 <= t -> size2 x = c.
Proof.
  intros [Hb Hrows] Hpos Htpos. destruct x as [|row x]; simpl in *; [lia|].
  inversion Hrows as [|? ? Hrow _]. unfold size2. simpl.
  apply (shape2_size1 Hrow Htpos).
Qed.

Lemma nth_transpose2 (r c j : nat) (m : Matrix R) :
  shape2 r c m -> 1 <= r -> j < c ->
  nth j (transpose2 m) [] = map (fun row => nth j row zero) m.
Proof.
  intros Hm Hr Hj. unfold transpose2. rewrite (shape2_size1 Hm Hr).
  apply (nth_map_seq (fun j => map (fun row => nth j row zero) m)). exact Hj.
Qed.

Lemma shape2_transpose2 (r c : nat) (m : Matrix R) :
  shape2 r c m -> 1 <= r -> shape2 c r (transpose2 m).
Proof.
  intros Hm Hr. unfold transpose2. rewrite (shape2_size1 Hm Hr).
  split; [rewrite length_map, length_seq; reflexivity|].
  apply Forall_map. apply Forall_forall. intros j _.
  rewrite length_map. apply Hm.
Qed.

Lemma nth_nth_transpose2 (r c i j : nat) (m : Matrix R) :
  shape2 r c m -> 1 <= r -> i < r -> j < c ->
  nth i (nth j (transpose2 m) []) zero = nth j (nth i m []) zero.
Proof.
  intros Hm Hr Hi Hj. rewrite (nth_transpose2 Hm Hr Hj).
  apply (nth_map_in (fun row => nth j row zero) m []).
  destruct Hm as [Hlen _]. lia.
Qed.

(** *** Sums over a commutative semiring *)

Context {laws : @ScalarLaws R _}.

Lemma add_zero_r (a : R) : add a zero = a.
Proof.
  rewrite (SRadd_comm scalar_semiring). apply (SRadd_0_l scalar_semiring).
Qed.

Lemma add_swap (a b c d : R) :
  add (add a b) (add c d) = add (add a c) (add b d).
Proof.
  rewrite <- !(SRadd_assoc scalar_semiring). f_equal.
  rewrite !(SRadd_assoc scalar_semiring). f_equal.
  apply (SRadd_comm scalar_semiring).
Qed.

Lemma rsum_app (l1 l2 : list R) :
  rsum (l1 ++ l2) = add (rsum l1) (rsum l2).
Proof.
  induction l1 as [|a l1 IH]; simpl.
  - symmetry. apply (SRadd_0_l scalar_semiring).
  - rewrite IH. apply (SRadd_assoc scalar_semiring).
Qed.

Lemma rsum_map_add {A : Type} (f g : A -> R) (l : list A) :
  rsum (map (fun i => add (f i) (g i)) l) = add (rsum (map f l)) (rsum (map g l)).
Proof.
  induction l as [|a l IH]; simpl.
  - symmetry. apply (SRadd_0_l scalar_semiring).
  - rewrite IH. apply add_swap.
Qed.

Lemma rsum_map_zero {A : Type} (l : list A) :
  rsum (map (fun _ => zero) l) = zero.
Proof.
  induction l as [|a l IH]; simpl; [reflexivity|].
  rewrite IH. apply (SRadd_0_l scalar_semiring).
Qed.

Lemma rsum_exchange {A B : Type} (f : A -> B -> R) (la : list A) (lb : list B) :
  rsum (map (fun a => rsum (map (fun b => f a b) lb)) la)
  = rsum (map (fun b => rsum (map (fun a => f a b) la)) lb).
Proof.
  induction la as [|a la IH]; simpl.
  - symmetry. apply rsum_map_zero.
  - rewrite IH. symmetry.
    apply (rsum_map_add (fun b => f a b) (fun b => rsum (map (fun a' => f a' b) la))).
Qed.

Lemma dot_nth (n : nat) (u v : list R) :
  length u = n -> length v = n ->
  dot u v = rsum (map (fun i => mul (nth i u zero) (nth i v zero)) (seq 0 n)).
Proof.
  intros Hu Hv. unfold dot. rewrite (map2_nth mul u v zero zero Hu Hv). reflexivity.
Qed.

Lemma dot_app (u1 u2 v1 v2 : list R) :
  length u1 = length v1 ->
  dot (u1 ++ u2) (v1 ++ v2) = add (dot u1 v1) (dot u2 v2).
Proof.
  revert v1; induction u1 as [|a u1 IH]; intros [|b v1] Hlen;
    simpl in *; try discriminate.
  - symmetry. apply (SRadd_0_l scalar_semiring).
  - unfold dot, map2 in *. simpl. rewrite IH by lia.
    apply (SRadd_assoc scalar_semiring).
Qed.

Lemma dot_concat (k n : nat) (a b : Matrix R) :
  shape2 k n a -> shape2 k n b ->
  dot (concat a) (concat b)
  = rsum (map (fun j => dot (nth j a []) (nth j b [])) (seq 0 k)).
Proof.
  revert k b; induction a as [|ra a IH]; intros k [|rb b] [Hka Ha] [Hkb Hb];
    simpl in *; subst k; try discriminate.
  - reflexivity.
  - inversion Ha as [|? ? Hra Ha']; inversion Hb as [|? ? Hrb Hb']; subst.
    rewrite dot_app by congruence. simpl. f_equal.
    rewrite <- seq_shift, map_map.
    apply (IH (length a) b); split; auto; lia.
Qed.

(** *** The linearized weight *)

Lemma with_bias_map {A B : Type} (f : A -> B) (w : list A) (b : option (list R)) :
  with_bias (map f w) b = map (fun wb => (f (fst wb), snd wb)) (with_bias w b).
Proof.
  destruct b as [bv|]; simpl.
  - rewrite map2_map_l. unfold map2. rewrite map_map. reflexivity.
  - rewrite !map_map. reflexivity.
Qed.

Lemma in_with_bias {A : Type} (w : list A) (b : option (list R)) (wb : A * option R) :
  In wb (with_bias w b) -> In (fst wb) w.
Proof.
  destruct b as [bv|]; simpl; unfold map2; intros Hin;
    apply in_map_iff in Hin; destruct Hin as [x [Hx Hin]]; subst wb; simpl.
  - destruct x as [w_o b_o]. apply (in_combine_l _ _ _ _ Hin).
  - exact Hin.
Qed.

Lemma linearize_shaped (o i k : nat) (w : Tensor3 R) :
  shape3 o i k w -> 1 <= o -> 1 <= i ->
  linearize w = Ok (linearized_spec w) /\
  shape2 o (k * i) (linearized_spec w).
Proof.
  intros Hw Ho Hi.
  assert (Hlin : shape2 o (k * i) (linearized_spec w)).
  { destruct Hw as [Hlen Hrows]. split.
    - unfold linearized_spec. rewrite length_map. exact Hlen.
    - unfold linearized_spec. apply Forall_map.
      apply Forall_impl with (2 := Hrows). intros w_o Hwo.
      destruct (shape2_transpose2 Hwo Hi) as [Hk Hr].
      rewrite (length_concat_rect Hr), Hk. reflexivity. }
  split; [|exact Hlin].
  unfold linearize, view_as, contiguous, transpose12.
  rewrite (shape3_size1 Hw Ho), (shape3_size2 Hw Ho Hi).
  rewrite map_map. fold (linearized_spec w).
  destruct Hlin as [Hlen Hrows].
  unfold size0. destruct Hw as [Hwlen _].
  rewrite (length_concat_rect Hrows), Hlen, Hwlen, Nat.eqb_refl.
  rewrite <- Hlen at 1. rewrite (chunks_concat Hrows). reflexivity.
Qed.

(** The projection of a flattened window of [kk] frames by a linearized
    weight row is the convolution sum over that window. *)
Lemma window_projection (kk cc t : nat) (F w_o xp : Matrix R) :
  shape2 kk cc F -> shape2 cc kk w_o -> length xp = cc -> 1 <= cc ->
  (forall c k, c < cc -> k < kk ->
     nth (t * 1 + k * 1) (nth c xp []) zero = nth c (nth k F []) zero) ->
  dot (concat F) (concat (transpose2 w_o)) = conv_at 1 1 t xp w_o.
Proof.
  intros HF Hw Hxp Hcc Hentry.
  pose proof (shape2_transpose2 Hw Hcc) as HwT.
  transitivity
    (rsum (map (fun k => rsum (map (fun c =>
        mul (nth c (nth k F []) zero) (nth k (nth c w_o []) zero))
        (seq 0 cc))) (seq 0 kk))).
  - rewrite (dot_concat HF HwT). f_equal.
    apply map_ext_in. intros k Hk. apply in_seq in Hk.
    rewrite (dot_nth (n:=cc)).
    + f_equal. apply map_ext_in. intros c Hc. apply in_seq in Hc.
      f_equal. apply (nth_nth_transpose2 Hw); lia.
    + apply (shape2_nth HF). lia.
    + apply (shape2_nth HwT). lia.
  - rewrite rsum_exchange. unfold conv_at.
    destruct Hw as [Hwlen Hwrows].
    rewrite (map2_nth _ w_o xp [] [] Hwlen Hxp). f_equal.
    apply map_ext_in. intros c Hc. apply in_seq in Hc.
    assert (Hlen : length (nth c w_o []) = kk).
    { apply (shape2_nth (conj Hwlen Hwrows)). lia. }
    rewrite Hlen. rewrite (dot_nth (n:=kk)).
    + f_equal. apply map_ext_in. intros k Hk. apply in_seq in Hk.
      unfold window. rewrite (nth_map_seq _ zero) by lia.
      rewrite (Hentry c k) by lia.
      apply (SRmul_comm scalar_semiring).
    + exact Hlen.
    + unfold window. rewrite length_map, length_seq. reflexivity.
Qed.

Lemma well_formed_bias_fits (l : Layer R) :
  well_formed l -> bias_fits (weight l) (bias l) = true.
Proof.
  intros (_ & _ & _ & _ & _ & [Hlen _] & Hb & _).
  unfold bias_fits. destruct (bias l) as [bv|]; [|reflexivity].
  rewrite (Hb bv eq_refl), Hlen. apply Nat.eqb_refl.
Qed.

Lemma bias_fits_linearized (w : Tensor3 R) (b : option (list R)) :
  bias_fits (linearized_spec w) b = bias_fits w b.
Proof.
  unfold bias_fits, linearized_spec. destruct b; [|reflexivity].
  rewrite length_map. reflexivity.
Qed.

Lemma forallb_true_in {A : Type} (f : A -> bool) (l : list A) :
  (forall a, In a l -> f a = true) -> forallb f l = true.
Proof. intros Hf. apply forallb_forall. exact Hf. Qed.

(** C3.  On a layer with an empty cache, the linearized weight is the
    weight with the kernel and input-channel axes of every output channel
    transposed and then flattened, of shape
    [(out_channels, kernel_size * in_channels)]; and for every window of
    [kernel_size] input frames, the linear projection of the flattened window
    by this matrix is the 1-D convolution of the weight over that window. *)
Theorem linearized_weight_is_convolution (l : Layer R) :
  well_formed l -> _linearized_weight l = None ->
  fst (_get_linearized_weight l) = Ok (linearized_spec (weight l)) /\
  shape2 (out_channels l) (kernel_size l * in_channels l)
         (linearized_spec (weight l)) /\
  forall window, shape2 (kernel_size l) (in_channels l) window ->
    exists y,
      F_linear [concat window] (linearized_spec (weight l)) (bias l) = Ok [y] /\
      conv1d [transpose2 window] (weight l) (bias l) 1 0 1
      = Ok [map (fun v => [v]) y].
Proof.
  intros Hwf Hcache.
  pose proof (well_formed_bias_fits Hwf) as Hbias.
  destruct Hwf as (Hi & Ho & Hk & _ & _ & Hw & _ & _).
  destruct (linearize_shaped Hw Ho Hi) as [Hlin Hshape].
  split; [|split; [exact Hshape|]].
  - unfold _get_linearized_weight. rewrite bind_gets, Hcache, bind_gets, Hlin.
    reflexivity.
  - intros window Hwin.
    exists (affine (linearized_spec (weight l)) (bias l) (concat window)).
    pose proof (shape2_transpose2 Hwin Hk) as HwinT.
    split.
    + unfold F_linear. simpl forallb.
      rewrite (shape2_size1 Hshape Ho).
      destruct Hwin as [Hwlen Hwrows].
      rewrite (length_concat_rect Hwrows), Hwlen, Nat.eqb_refl.
      rewrite (bias_fits_linearized (weight l) (bias l)), Hbias. reflexivity.
    + unfold conv1d. simpl forallb.
      destruct HwinT as [HTlen HTrows].
      rewrite HTlen, (shape3_size1 Hw Ho), Nat.eqb_refl, Hbias.
      rewrite (shape3_size2 Hw Ho Hi).
      assert (HL : size2 [transpose2 window] = kernel_size l).
      { unfold size2. simpl. apply (shape2_size1 (conj HTlen HTrows) Hi). }
      rewrite HL.
      replace (1 * (kernel_size l - 1) + 1 <=? kernel_size l + 2 * 0) with true
        by (symmetry; apply Nat.leb_le; lia).
      simpl andb. cbv iota.
      replace (conv_out_len (kernel_size l) 0 1 (kernel_size l) 1) with 1.
      2:{ unfold conv_out_len.
          replace (kernel_size l + 2 * 0 - 1 * (kernel_size l - 1) - 1) with 0 by lia.
          reflexivity. }
      simpl. do 2 f_equal.
      unfold affine, linearized_spec. rewrite with_bias_map, !map_map.
      apply map_ext_in. intros wb Hwb. simpl. do 2 f_equal.
      apply in_with_bias in Hwb.
      assert (Hwo : shape2 (in_channels l) (kernel_size l) (fst wb)).
      { destruct Hw as [_ Hrows]. rewrite Forall_forall in Hrows.
        apply Hrows. exact Hwb. }
      symmetry.
      apply window_projection with (kk := kernel_size l) (cc := in_channels l).
      * exact Hwin.
      * exact Hwo.
      * rewrite length_map. exact HTlen.
      * exact Hi.
      * intros c k Hc Hk'.
        rewrite (nth_map_in (pad_zeros 0) (transpose2 window) [] [])
          by (rewrite HTlen; exact Hc).
        unfold pad_zeros. simpl. rewrite app_nil_r.
        replace (k * 1) with k by lia.
        apply (nth_nth_transpose2 Hwin); lia.
Qed.

(** *** One incremental step *)

Lemma bind_Ok {A B : Type} (m : M R A) (k : A -> M R B) (l l' : Layer R) (a : A) :
  m l = (Ok a, l') -> bind m k l = k a l'.
Proof. intros Hm. unfold bind. rewrite Hm. reflexivity. Qed.

Lemma bind_Raise {A B : Type} (m : M R A) (k : A -> M R B) (l l' : Layer R) (e : exn) :
  m l = (Raise e, l') -> bind m k l = (Raise e, l').
Proof. intros Hm. unfold bind. rewrite Hm. reflexivity. Qed.

Lemma run_forward_pre_hooks_none (input : Tensor3 R) (l : Layer R) :
  _forward_pre_hooks l = [] -> run_forward_pre_hooks input l = (Ok tt, l).
Proof.
  intros Hh. unfold run_forward_pre_hooks, modify. rewrite Hh. simpl.
  destruct l; reflexivity.
Qed.

Lemma get_linearized_weight_served (l : Layer R) :
  well_formed l ->
  _get_linearized_weight l
  = (Ok (served_weight l), set_linearized_weight (Some (served_weight l)) l).
Proof.
  intros (Hi & Ho & _ & _ & _ & Hw & _ & _).
  unfold _get_linearized_weight, served_weight. rewrite bind_gets.
  destruct (_linearized_weight l) as [lw|] eqn:Hc.
  - unfold ret. f_equal. destruct l; simpl in *. rewrite Hc. reflexivity.
  - rewrite bind_gets. destruct (linearize_shaped Hw Ho Hi) as [Hlin _].
    rewrite Hlin. reflexivity.
Qed.

Lemma bind_hooks_none {B : Type} (input : Tensor3 R) (k : unit -> M R B) (l : Layer R) :
  _forward_pre_hooks l = [] ->
  bind (run_forward_pre_hooks input) k l = k tt l.
Proof.
  intros Hh. apply bind_Ok. apply run_forward_pre_hooks_none. exact Hh.
Qed.

Lemma bind_get_served {B : Type} (k : Matrix R -> M R B) (l : Layer R) :
  well_formed l ->
  bind _get_linearized_weight k l
  = k (served_weight l) (set_linearized_weight (Some (served_weight l)) l).
Proof.
  intros Hwf. apply bind_Ok. apply get_linearized_weight_served. exact Hwf.
Qed.

Lemma served_weight_coherent (l : Layer R) :
  well_formed l -> cache_coherent l -> served_weight l = linearized_spec (weight l).
Proof.
  intros (Hi & Ho & _ & _ & _ & Hw & _ & _) Hc.
  unfold served_weight, cache_coherent in *.
  destruct (_linearized_weight l) as [lw|]; [|reflexivity].
  destruct (linearize_shaped Hw Ho Hi) as [Hlin _]. congruence.
Qed.

Lemma shape3_zeros (b k c : nat) : shape3 b k c (zeros b k c).
Proof.
  unfold zeros. split; [apply repeat_length|].
  apply Forall_forall. intros row Hrow. apply repeat_spec in Hrow. subst row.
  split; [apply repeat_length|].
  apply Forall_forall. intros f Hf. apply repeat_spec in Hf. subst f.
  apply repeat_length.
Qed.

Lemma select_last_shaped (b t c : nat) (input : Tensor3 R) :
  shape3 b t c input -> 1 <= t ->
  select_last input = Ok (map (fun row => last row []) input).
Proof.
  intros [_ Hrows] Ht. unfold select_last.
  rewrite forallb_true_in; [reflexivity|].
  intros row Hrow. rewrite Forall_forall in Hrows.
  destruct (Hrows row Hrow) as [Hlen _]. apply Nat.ltb_lt. lia.
Qed.

Lemma last_in_or_default {A : Type} (l : list A) (d : A) :
  l <> [] -> In (last l d) l.
Proof.
  intros Hl. rewrite (app_removelast_last d Hl) at 2.
  apply in_or_app. right. left. reflexivity.
Qed.

Lemma shape2_last_frames (b t c : nat) (input : Tensor3 R) :
  shape3 b t c input -> 1 <= t ->
  shape2 b c (map (fun row => last row []) input).
Proof.
  intros [Hb Hrows] Ht. split; [rewrite length_map; exact Hb|].
  apply Forall_map. apply Forall_impl with (2 := Hrows).
  intros row [Hlen Hfr]. rewrite Forall_forall in Hfr. apply Hfr.
  apply last_in_or_default. destruct row; simpl in *; [lia|discriminate].
Qed.

Lemma broadcast_same {A : Type} (n : nat) (l : list A) :
  length l = n -> broadcast n l = Some l.
Proof. intros Hl. unfold broadcast. rewrite Hl, Nat.eqb_refl. reflexivity. Qed.

Lemma broadcast_all_same {A : Type} (n : nat) (ls : list (list A)) :
  Forall (fun l => length l = n) ls -> broadcast_all n ls = Some ls.
Proof.
  induction 1 as [|l ls Hl _ IH]; simpl; [reflexivity|].
  rewrite broadcast_same by exact Hl. rewrite IH. reflexivity.
Qed.

Lemma assign_last_shaped (b k c : nat) (buf : Tensor3 R) (fr : Matrix R) :
  shape3 b k c buf -> shape2 b c fr -> 1 <= b -> 1 <= k ->
  assign_last buf fr
  = Ok (map2 (fun row f => firstn (k - 1) row ++ [f]) buf fr).
Proof.
  intros Hbuf [Hfb Hfr] Hb Hk. unfold assign_last.
  rewrite (shape3_size2 Hbuf Hb Hk), broadcast_all_same by exact Hfr.
  destruct Hbuf as [Hlen Hrows]. unfold size0.
  rewrite Hlen, broadcast_same by exact Hfb.
  f_equal. unfold map2. apply map_ext_in. intros [row f] Hin. simpl.
  apply in_combine_l in Hin. rewrite Forall_forall in Hrows.
  destruct (Hrows row Hin) as [Hk' _]. rewrite Hk'. reflexivity.
Qed.

Lemma firstn_shift_row {A : Type} (k : nat) (row : list A) :
  length row = k -> 1 <= k -> firstn (k - 1) (shift_row row) = skipn 1 row.
Proof.
  intros Hlen Hk. unfold shift_row.
  rewrite firstn_app, length_skipn, Hlen, Nat.sub_diag. simpl firstn at 2.
  rewrite app_nil_r. apply firstn_all2. rewrite length_skipn. lia.
Qed.

Lemma length_shift_row {A : Type} (k : nat) (row : list A) :
  length row = k -> 1 <= k -> length (shift_row row) = k.
Proof.
  intros Hlen Hk. unfold shift_row. rewrite length_app, !length_skipn. lia.
Qed.

Lemma firstn_repeat {A : Type} (a : A) (n k : nat) :
  n <= k -> firstn n (repeat a k) = repeat a n.
Proof.
  revert k; induction n as [|n IH]; intros [|k] Hle; simpl; try reflexivity; [lia|].
  f_equal. apply IH. lia.
Qed.

Lemma skipn_repeat {A : Type} (a : A) (n k : nat) :
  skipn n (repeat a k) = repeat a (k - n).
Proof.
  revert k; induction n as [|n IH]; intros [|k]; simpl; try reflexivity.
  apply IH.
Qed.

Lemma shape3_next_buffer (b k c t : nat) (buf input : Tensor3 R) :
  shape3 b k c buf -> shape3 b t c input -> 1 <= k -> 1 <= t ->
  shape3 b k c (next_buffer buf input).
Proof.
  intros [Hb Hrows] Hin Hk Ht. pose proof (shape2_last_frames Hin Ht) as [Hfb Hfr].
  destruct Hin as [Hib Hirows].
  unfold next_buffer. split.
  - rewrite length_map2. lia.
  - unfold map2. apply Forall_map. apply Forall_forall. intros [brow row] Hpair.
    cbn [fst snd]. rewrite Forall_forall in Hrows, Hirows.
    destruct (Hrows brow (in_combine_l _ _ _ _ Hpair)) as [Hk' Hc'].
    destruct (Hirows row (in_combine_r _ _ _ _ Hpair)) as [Ht' Hc''].
    split.
    + rewrite length_app, length_skipn. simpl. lia.
    + apply Forall_app. split.
      * apply Forall_forall. intros f Hf. rewrite Forall_forall in Hc'.
        apply Hc'. rewrite <- (firstn_skipn 1 brow). apply in_or_app. right. exact Hf.
      * constructor; [|constructor].
        rewrite Forall_forall in Hc''. apply Hc''.
        apply last_in_or_default. destruct row; simpl in *; [lia|discriminate].
Qed.

Lemma view_rows_shaped (b k c : nat) (x : Tensor3 R) :
  shape3 b k c x -> 1 <= b ->
  view_rows b (contiguous x) = Ok (map (@concat R) x).
Proof.
  intros [Hb Hrows] Hpos.
  assert (Hflat : Forall (fun row => length row = k * c) (map (@concat R) x)).
  { apply Forall_map. apply Forall_impl with (2 := Hrows).
    intros row [Hk Hc]. rewrite (length_concat_rect Hc), Hk. reflexivity. }
  unfold view_rows, contiguous.
  rewrite (length_concat_rect Hflat), length_map, Hb.
  replace (0 <? b) with true by (symmetry; apply Nat.ltb_lt; lia).
  rewrite (Nat.mul_comm b (k * c)).
  rewrite Nat.Div0.mod_mul, Nat.div_mul by lia. simpl.
  f_equal. rewrite <- Hb at 1. rewrite <- (length_map (@concat R) x).
  apply chunks_concat. exact Hflat.
Qed.

Lemma incremental_forward_step (b t c : nat) (l : Layer R) (input : Tensor3 R) :
  well_formed l -> training l = false -> 1 < kernel_size l ->
  shape3 b t c input -> 1 <= b -> 1 <= t -> buffer_fits b c l ->
  incremental_forward input l
  = (rbind (F_linear (map (@concat R) (next_buffer (buffer_or_zeros b c l) input))
                     (served_weight l) (bias l))
           (fun o => Ok (map (fun v => [v]) o)),
     set_input_buffer (Some (next_buffer (buffer_or_zeros b c l) input))
       (set_linearized_weight (Some (served_weight l)) l)).
Proof.
  intros Hwf Htr Hk Hin Hb Ht Hfit.
  pose proof Hwf as (_ & _ & _ & _ & _ & _ & _ & Hhooks).
  unfold incremental_forward, incremental_body.
  rewrite bind_gets, Htr.
  erewrite bind_Ok by (apply run_forward_pre_hooks_none; exact Hhooks).
  erewrite bind_Ok by (apply get_linearized_weight_served; exact Hwf).
  rewrite bind_gets. simpl kernel_size.
  replace (1 <? kernel_size l) with true by (symmetry; apply Nat.ltb_lt; exact Hk).
  rewrite bind_assoc, bind_gets. simpl input_buffer.
  rewrite bind_assoc, bind_modify, bind_assoc.
  rewrite (select_last_shaped Hin Ht), bind_lift_Ok.
  assert (Hbuf1 :
    assign_last
      match input_buffer l with
      | Some b0 => shift_buffer b0
      | None => zeros (size0 input) (kernel_size l) (size2 input)
      end
      (map (fun row => last row []) input)
    = Ok (next_buffer (buffer_or_zeros b c l) input)).
  { unfold buffer_or_zeros, buffer_fits in *.
    destruct Hin as [Hib Hirows] eqn:Hin'. clear Hin'.
    pose proof (shape2_last_frames (conj Hib Hirows) Ht) as Hfr.
    destruct (input_buffer l) as [buf|].
    - rewrite (@assign_last_shaped b (kernel_size l) c); try assumption; try lia.
      + f_equal. unfold next_buffer, shift_buffer.
        rewrite map2_map_l, map2_map_r.
        apply map2_ext_in. intros brow row Hbrow _.
        destruct Hfit as [_ Hrows]. rewrite Forall_forall in Hrows.
        destruct (Hrows brow Hbrow) as [Hlen _].
        rewrite (@firstn_shift_row _ (kernel_size l) brow Hlen) by lia. reflexivity.
      + destruct Hfit as [Hlen Hrows]. split.
        * unfold shift_buffer. rewrite length_map. exact Hlen.
        * unfold shift_buffer. apply Forall_map.
          apply Forall_impl with (2 := Hrows). intros brow [Hl Hc]. split.
          -- apply (@length_shift_row _ (kernel_size l) brow Hl). lia.
          -- unfold shift_row. apply Forall_app. rewrite Forall_forall in Hc.
             split; apply Forall_forall; intros f Hf; apply Hc.
             ++ rewrite <- (firstn_skipn 1 brow). apply in_or_app. right. exact Hf.
             ++ rewrite <- (firstn_skipn (length brow - 1) brow).
                apply in_or_app. right. exact Hf.
    - unfold size0. rewrite Hib, (shape3_size2 (conj Hib Hirows) Hb Ht).
      rewrite (@assign_last_shaped b (kernel_size l) c);
        try assumption; try lia; [|apply shape3_zeros].
      f_equal. unfold next_buffer. rewrite map2_map_r.
      apply map2_ext_in. intros brow row Hbrow _.
      unfold zeros in Hbrow. apply repeat_spec in Hbrow. subst brow.
      rewrite firstn_repeat by lia. rewrite skipn_repeat. reflexivity. }
  rewrite bind_assoc, Hbuf1, bind_lift_Ok, bind_assoc, bind_modify, bind_ret, bind_gets.
  assert (Hshape : shape3 b (kernel_size l) c
                     (next_buffer (buffer_or_zeros b c l) input)).
  { apply (@shape3_next_buffer b (kernel_size l) c t); try assumption; try lia.
    unfold buffer_or_zeros, buffer_fits in *.
    destruct (input_buffer l); [exact Hfit|apply shape3_zeros]. }
  destruct Hin as [Hib Hirows]. unfold size0 at 1. rewrite Hib.
  rewrite (view_rows_shaped Hshape Hb), bind_lift_Ok.
  simpl bias.
  destruct (F_linear _ _ _) as [o|e]; reflexivity.
Qed.

Lemma size2_last_frame_only (b t c : nat) (input : Tensor3 R) :
  shape3 b t c input -> 1 <= t ->
  size2 (last_frame_only input) = size2 input.
Proof.
  intros [_ Hrows] Ht. unfold size2, last_frame_only.
  destruct input as [|row input]; [reflexivity|]. simpl.
  inversion Hrows as [|? ? Hrow _]; subst. destruct Hrow as [Hlen Hfr].
  destruct row as [|f row]; [simpl in Hlen; lia|].
  rewrite Forall_forall in Hfr.
  cbn [hd]. rewrite (Hfr f (or_introl eq_refl)).
  apply Hfr. apply last_in_or_default. discriminate.
Qed.

Lemma select_last_frame_only (b t c : nat) (input : Tensor3 R) :
  shape3 b t c input -> 1 <= t ->
  select_last (last_frame_only input) = select_last input.
Proof.
  intros Hin Ht. rewrite (select_last_shaped Hin Ht).
  unfold select_last, last_frame_only.
  rewrite forallb_true_in.
  - rewrite map_map. reflexivity.
  - intros row Hrow. apply in_map_iff in Hrow.
    destruct Hrow as [r [Hr _]]. subst row. reflexivity.
Qed.

(** C10.  With kernel width above 1, [incremental_forward] uses only the
    last frame of every row of its input: on an input with several time
    steps the call returns the same result and leaves the same state as on
    the input reduced to its final frame. *)
Theorem incremental_forward_reads_last_frame (b t c : nat) (l : Layer R)
    (input : Tensor3 R) :
  well_formed l -> 1 < kernel_size l ->
  shape3 b t c input -> 1 <= t ->
  incremental_forward input l = incremental_forward (last_frame_only input) l.
Proof.
  intros Hwf Hk Hin Ht.
  pose proof Hwf as (_ & _ & _ & _ & _ & _ & _ & Hhooks).
  unfold incremental_forward, incremental_body. rewrite !bind_gets.
  destruct (training l); [reflexivity|].
  rewrite !bind_hooks_none by exact Hhooks.
  rewrite !bind_get_served by exact Hwf.
  rewrite !bind_gets. simpl kernel_size.
  replace (1 <? kernel_size l) with true by (symmetry; apply Nat.ltb_lt; exact Hk).
  rewrite (size2_last_frame_only Hin Ht), (select_last_frame_only Hin Ht).
  unfold size0, last_frame_only. rewrite length_map. reflexivity.
Qed.

(** *** The rolling buffer over a run of calls *)



Lemma recent_frames_snoc (k c : nat) (h : list (list R)) (f : list R) :
  1 <= k ->
  skipn 1 (recent_frames k c h) ++ [f] = recent_frames k c (h ++ [f]).
Proof.
  intros Hk. unfold recent_frames.
  rewrite skipn_skipn, length_app, app_assoc. simpl length.
  rewrite (skipn_app (length h + 1)), length_app, repeat_length.
  replace (1 + length h) with (length h + 1) by lia.
  replace (length h + 1 - (k + length h)) with 0 by lia.
  reflexivity.
Qed.

Lemma length_recent_frames (k c : nat) (h : list (list R)) :
  length (recent_frames k c h) = k.
Proof.
  unfold recent_frames. rewrite length_skipn, length_app, repeat_length. lia.
Qed.

Lemma recent_buffer_nil (b k c : nat) : recent_buffer b k c [] = zeros b k c.
Proof.
  unfold recent_buffer, recent_frames, history, zeros. simpl.
  rewrite app_nil_r. apply map_const_seq.
Qed.

Lemma next_buffer_recent (b k c : nat) (done : list (Tensor3 R)) (input : Tensor3 R) :
  1 <= k -> length input = b ->
  next_buffer (recent_buffer b k c done) input
  = recent_buffer b k c (done ++ [input]).
Proof.
  intros Hk Hlen. unfold next_buffer, recent_buffer.
  rewrite (@map2_nth _ _ _ _ _ _ b [] []);
    [|rewrite length_map, length_seq; reflexivity|exact Hlen].
  apply map_ext_in. intros i Hi. apply in_seq in Hi.
  rewrite (nth_map_seq _ []) by lia.
  unfold history. rewrite map_app. simpl map.
  apply recent_frames_snoc. exact Hk.
Qed.

Lemma frames_input_last (b c i : nat) (input : Tensor3 R) :
  frames_input b c input -> i < b -> length (last (nth i input []) []) = c.
Proof.
  intros [t [Ht Hin]] Hi.
  destruct (shape3_nth Hin Hi) as [Hlen Hfr].
  rewrite Forall_forall in Hfr. apply Hfr.
  apply last_in_or_default. destruct (nth i input []); simpl in *; [lia|discriminate].
Qed.

Lemma shape3_recent_buffer (b k c : nat) (done : list (Tensor3 R)) :
  Forall (frames_input b c) done -> shape3 b k c (recent_buffer b k c done).
Proof.
  intros Hdone. unfold recent_buffer. split.
  - rewrite length_map, length_seq. reflexivity.
  - apply Forall_map. apply Forall_forall. intros i Hi. apply in_seq in Hi.
    split; [apply length_recent_frames|].
    apply Forall_forall. intros f Hf. unfold recent_frames in Hf.
    assert (Hin : In f (repeat (repeat zero c) k ++ history i done)).
    { rewrite <- (firstn_skipn (length (history i done))).
      apply in_or_app. right. exact Hf. }
    apply in_app_or in Hin. destruct Hin as [Hz|Hh].
    + apply repeat_spec in Hz. subst f. apply repeat_length.
    + unfold history in Hh. apply in_map_iff in Hh.
      destruct Hh as [input [Hf' Hinput]]. subst f.
      rewrite Forall_forall in Hdone.
      apply (frames_input_last (Hdone input Hinput)). lia.
Qed.

Lemma incremental_run_cons (input : Tensor3 R) (rest : list (Tensor3 R)) (l : Layer R) :
  incremental_run (input :: rest) l
  = (fst (incremental_forward input l)
       :: fst (incremental_run rest (snd (incremental_forward input l))),
     snd (incremental_run rest (snd (incremental_forward input l)))).
Proof.
  simpl. destruct (incremental_forward input l) as [r l1]. simpl.
  destruct (incremental_run rest l1) as [rs l2]. reflexivity.
Qed.

Lemma incremental_run_recent (b c : nat) (inputs : list (Tensor3 R)) :
  forall (done : list (Tensor3 R)) (l : Layer R),
    well_formed l -> training l = false -> 1 < kernel_size l -> 1 <= b ->
    Forall (frames_input b c) done -> Forall (frames_input b c) inputs ->
    buffer_or_zeros b c l = recent_buffer b (kernel_size l) c done ->
    fst (incremental_run inputs l)
    = map (fun j =>
             rbind (F_linear
                      (map (@concat R)
                         (recent_buffer b (kernel_size l) c
                            (done ++ firstn (S j) inputs)))
                      (served_weight l) (bias l))
                   (fun o => Ok (map (fun v => [v]) o)))
          (seq 0 (length inputs))
    /\ (inputs <> [] ->
        input_buffer (snd (incremental_run inputs l))
        = Some (recent_buffer b (kernel_size l) c (done ++ inputs))).
Proof.
  induction inputs as [|input rest IH]; intros done l Hwf Htr Hk Hb Hdone Hins Hbuf.
  - split; [reflexivity|]. intros Hne. contradiction Hne. reflexivity.
  - inversion Hins as [|? ? Hinput Hrest]; subst.
    assert (Hfit : buffer_fits b c l).
    { unfold buffer_fits, buffer_or_zeros in *.
      destruct (input_buffer l); [|exact I].
      rewrite Hbuf. apply shape3_recent_buffer. exact Hdone. }
    destruct Hinput as [t [Ht Hin]].
    assert (Hlen : length input = b) by (destruct Hin; assumption).
    rewrite incremental_run_cons.
    rewrite (incremental_forward_step Hwf Htr Hk Hin Hb Ht Hfit).
    rewrite Hbuf, next_buffer_recent by (exact Hlen || lia).
    cbn [fst snd].
    set (l' := set_input_buffer _ _).
    destruct (IH (done ++ [input]) l') as [IHout IHbuf]; try assumption.
    { apply Forall_app. split; [exact Hdone|].
      constructor; [exists t; split; assumption|constructor]. }
    { reflexivity. }
    split.
    + rewrite IHout. simpl length. simpl seq. simpl map. f_equal.
      rewrite <- seq_shift, map_map. apply map_ext. intros j.
      rewrite <- app_assoc. reflexivity.
    + intros _. destruct rest as [|input2 rest].
      * reflexivity.
      * rewrite IHbuf by discriminate. rewrite <- app_assoc. reflexivity.
Qed.

Lemma nth_next_buffer (b i : nat) (buf input : Tensor3 R) :
  length buf = b -> length input = b -> i < b ->
  nth i (next_buffer buf input) []
  = skipn 1 (nth i buf []) ++ [last (nth i input []) []].
Proof.
  intros Hbuf Hin Hi. unfold next_buffer.
  rewrite (@map2_nth _ _ _ _ _ _ b [] [] Hbuf Hin).
  apply (nth_map_seq (fun j => skipn 1 (nth j buf []) ++ [last (nth j input []) []])).
  exact Hi.
Qed.

Lemma nth_zeros (b k c i : nat) :
  i < b -> nth i (zeros b k c) [] = repeat (repeat zero c) k.
Proof. intros Hi. unfold zeros. apply nth_repeat_lt. exact Hi. Qed.

(** C6.  With kernel width above 1, a call of [incremental_forward] on an
    input of [b] rows leaves a buffer of shape [(b, kernel_size, c)]:
    - without a buffer, every row is [kernel_size - 1] zero frames followed
      by the last frame of the input row;
    - with a buffer, every row is the old row without its oldest frame,
      followed by the last frame of the input row;
    and after a run of calls on a cleared buffer every row holds the most
    recent [kernel_size] frames it was fed, zero frames in front while fewer
    were fed. *)
Theorem incremental_forward_buffer_update (b t c : nat) (l : Layer R)
    (input : Tensor3 R) :
  well_formed l -> training l = false -> 1 < kernel_size l ->
  shape3 b t c input -> 1 <= b -> 1 <= t ->
  (input_buffer l = None ->
   exists nb,
     input_buffer (snd (incremental_forward input l)) = Some nb /\
     shape3 b (kernel_size l) c nb /\
     forall i, i < b ->
       nth i nb [] = repeat (repeat zero c) (kernel_size l - 1)
                     ++ [last (nth i input []) []]) /\
  (forall buf, input_buffer l = Some buf -> shape3 b (kernel_size l) c buf ->
   exists nb,
     input_buffer (snd (incremental_forward input l)) = Some nb /\
     shape3 b (kernel_size l) c nb /\
     forall i, i < b ->
       nth i nb [] = skipn 1 (nth i buf []) ++ [last (nth i input []) []]) /\
  (forall inputs, input_buffer l = None ->
   Forall (frames_input b c) inputs -> inputs <> [] ->
   exists fb,
     input_buffer (snd (incremental_run inputs l)) = Some fb /\
     shape3 b (kernel_size l) c fb /\
     forall i, i < b ->
       nth i fb [] = recent_frames (kernel_size l) c (history i inputs)).
Proof.
  intros Hwf Htr Hk Hin Hb Ht.
  assert (Hlen : length input = b) by (destruct Hin; assumption).
  split; [|split].
  - intros Hnone.
    assert (Hfit : buffer_fits b c l) by (unfold buffer_fits; rewrite Hnone; exact I).
    rewrite (incremental_forward_step Hwf Htr Hk Hin Hb Ht Hfit).
    unfold buffer_or_zeros. rewrite Hnone. cbn [snd input_buffer set_input_buffer].
    eexists. split; [reflexivity|]. split.
    + apply (@shape3_next_buffer b (kernel_size l) c t); try assumption; try lia.
      apply shape3_zeros.
    + intros i Hi.
      rewrite (@nth_next_buffer b) by (exact Hlen || exact Hi || apply repeat_length).
      rewrite nth_zeros by exact Hi. rewrite skipn_repeat. reflexivity.
  - intros buf Hsome Hshape.
    assert (Hfit : buffer_fits b c l) by (unfold buffer_fits; rewrite Hsome; exact Hshape).
    rewrite (incremental_forward_step Hwf Htr Hk Hin Hb Ht Hfit).
    unfold buffer_or_zeros. rewrite Hsome. cbn [snd input_buffer set_input_buffer].
    eexists. split; [reflexivity|]. split.
    + apply (@shape3_next_buffer b (kernel_size l) c t); try assumption; lia.
    + intros i Hi. destruct Hshape as [Hbl _].
      apply (@nth_next_buffer b); assumption.
  - intros inputs Hnone Hins Hne.
    destruct (@incremental_run_recent b c inputs [] l) as [_ Hfinal];
      try assumption.
    { constructor. }
    { unfold buffer_or_zeros. rewrite Hnone. symmetry. apply recent_buffer_nil. }
    rewrite (Hfinal Hne). simpl app.
    eexists. split; [reflexivity|]. split.
    + apply shape3_recent_buffer. exact Hins.
    + intros i Hi. unfold recent_buffer.
      apply (nth_map_seq (fun j => recent_frames (kernel_size l) c (history j inputs))).
      exact Hi.
Qed.

(** *** The batch mode *)

Lemma transpose2_tabulated {A : Type} (g : A -> nat -> R) (n : nat) (l : list A) :
  l <> [] ->
  transpose2 (map (fun a => map (fun j => g a j) (seq 0 n)) l)
  = map (fun j => map (fun a => g a j) l) (seq 0 n).
Proof.
  intros Hl. unfold transpose2.
  assert (Hsize : size1 (map (fun a => map (fun j => g a j) (seq 0 n)) l) = n).
  { destruct l as [|a l]; [contradiction Hl; reflexivity|].
    unfold size1. simpl. rewrite length_map, length_seq. reflexivity. }
  rewrite Hsize. apply map_ext_in. intros j Hj. apply in_seq in Hj.
  rewrite map_map. apply map_ext. intros a.
  apply (nth_map_seq (fun j => g a j)). lia.
Qed.

Lemma shape3_transpose12 (b t c : nat) (x : Tensor3 R) :
  shape3 b t c x -> 1 <= t -> shape3 b c t (transpose12 x).
Proof.
  intros [Hb Hrows] Ht. unfold transpose12. split.
  - rewrite length_map. exact Hb.
  - apply Forall_map. apply Forall_impl with (2 := Hrows).
    intros row Hrow. apply (shape2_transpose2 Hrow Ht).
Qed.

Lemma length_with_bias {A : Type} (w : list A) (b : option (list R)) :
  bias_fits w b = true -> length (with_bias w b) = length w.
Proof.
  unfold bias_fits, with_bias. destruct b as [bv|]; intros Hfit.
  - apply Nat.eqb_eq in Hfit. rewrite length_map2. lia.
  - apply length_map.
Qed.

Lemma forward_conv_shaped (b t : nat) (l : Layer R) (x : Tensor3 R) :
  well_formed l -> shape3 b t (in_channels l) x -> 1 <= b -> 1 <= t ->
  dilation l * (kernel_size l - 1) + 1 <= t + 2 * padding l ->
  forward_conv x l
  = (Ok (map (fun x_b =>
            map (fun j =>
                   map (fun wb =>
                          add_bias
                            (conv_at (stride l) (dilation l) j
                               (map (pad_zeros (padding l)) (transpose2 x_b))
                               (fst wb))
                            (snd wb))
                       (with_bias (weight l) (bias l)))
                (seq 0 (conv_out_len t (padding l) (dilation l)
                          (kernel_size l) (stride l))))
            x),
     l).
Proof.
  intros Hwf Hx Hb Ht Hfit.
  pose proof (well_formed_bias_fits Hwf) as Hbias.
  destruct Hwf as (Hi & Ho & Hk & Hs & Hd & Hw & _ & _).
  pose proof (shape3_transpose12 Hx Ht) as HxT.
  unfold forward_conv. rewrite !bind_gets. unfold conv1d.
  rewrite (shape3_size1 Hw Ho), (shape3_size2 Hw Ho Hi), (shape3_size2 HxT Hb Hi).
  rewrite Hbias.
  replace (forallb (fun xb => length xb =? in_channels l) (transpose12 x)) with true.
  2:{ symmetry. apply forallb_true_in. intros xb Hxb.
      destruct HxT as [_ Hrows]. rewrite Forall_forall in Hrows.
      destruct (Hrows xb Hxb) as [Hlen _]. rewrite Hlen. apply Nat.eqb_refl. }
  replace (dilation l * (kernel_size l - 1) + 1 <=? t + 2 * padding l) with true
    by (symmetry; apply Nat.leb_le; exact Hfit).
  replace (1 <=? stride l) with true by (symmetry; apply Nat.leb_le; exact Hs).
  cbn [andb]. rewrite bind_lift_Ok. unfold ret. f_equal. f_equal.
  unfold transpose12. rewrite !map_map. apply map_ext. intros x_b.
  apply (transpose2_tabulated
           (fun wb j => add_bias
              (conv_at (stride l) (dilation l) j
                 (map (pad_zeros (padding l)) (transpose2 x_b)) (fst wb))
              (snd wb))).
  intros Hnil. apply (f_equal (@length _)) in Hnil.
  pose proof (length_with_bias _ _ Hbias) as Hwb.
  destruct Hw as [Hlen _]. unfold Tensor3, Matrix in *.
  simpl in Hnil. lia.
Qed.

Lemma pad_zeros_0 (row : list R) : pad_zeros 0 row = row.
Proof. unfold pad_zeros. simpl. apply app_nil_r. Qed.

(** With kernel width 1 the convolution sum at step [j] is the dot product
    of frame [j] with the squeezed weight row. *)
Lemma kernel1_projection (cc t d j : nat) (w_o x_b : Matrix R) :
  shape2 cc 1 w_o -> shape2 t cc x_b -> j < t ->
  dot (nth j x_b []) (map (fun ks => hd zero ks) w_o)
  = conv_at 1 d j (map (pad_zeros 0) (transpose2 x_b)) w_o.
Proof.
  intros Hw Hx Hj.
  assert (Ht : 1 <= t) by lia.
  pose proof (shape2_transpose2 Hx Ht) as [HTlen _].
  rewrite (dot_nth (n:=cc));
    [|apply (shape2_nth Hx Hj)|rewrite length_map; apply Hw].
  unfold conv_at.
  rewrite (@map2_nth _ _ _ _ _ _ cc [] []);
    [|apply Hw|rewrite length_map; exact HTlen].
  f_equal. apply map_ext_in. intros c Hc. apply in_seq in Hc.
  rewrite (nth_map_in (fun ks => hd zero ks) w_o [] zero)
    by (destruct Hw as [Hl _]; lia).
  rewrite (nth_map_in (pad_zeros 0) (transpose2 x_b) [] []) by lia.
  rewrite pad_zeros_0.
  assert (Hlen : length (nth c w_o []) = 1) by (apply (shape2_nth Hw); lia).
  destruct (nth c w_o []) as [|a [|a' ks]]; simpl in Hlen; try discriminate.
  unfold window, dot, map2. simpl.
  replace (j * 1 + 0) with j by lia.
  rewrite (nth_nth_transpose2 Hx) by lia.
  rewrite add_zero_r. apply (SRmul_comm scalar_semiring).
Qed.

(** C2 (amended).  With kernel width 1, no padding and stride 1, [forward]
    is the direct projection by the squeezed weight plus bias, and its output
    is the output of the convolution path on the same input and weights. *)
Theorem forward_kernel1_is_convolution (b t : nat) (l : Layer R) (x : Tensor3 R) :
  well_formed l -> kernel_size l = 1 -> padding l = 0 -> stride l = 1 ->
  shape3 b t (in_channels l) x -> 1 <= b -> 1 <= t ->
  forward x l = forward_linear x l /\
  exists y, forward_linear x l = (Ok y, l) /\ forward_conv x l = (Ok y, l).
Proof.
  intros Hwf Hk Hp Hs Hx Hb Ht.
  split.
  { unfold forward. rewrite bind_gets, Hk. reflexivity. }
  rewrite (forward_conv_shaped Hwf Hx Hb Ht) by (rewrite Hk, Hp; lia).
  pose proof (well_formed_bias_fits Hwf) as Hbias.
  destruct Hwf as (Hi & Ho & _ & _ & _ & Hw & _ & _).
  rewrite Hk in Hw.
  eexists. split; [|reflexivity].
  unfold forward_linear. rewrite !bind_gets.
  unfold squeeze2. rewrite (shape3_size2 Hw Ho Hi). simpl Nat.eqb. cbv iota.
  rewrite bind_lift_Ok. unfold lift, F_linear3.
  assert (Hsize : size1 (map (map (fun ks => hd zero ks)) (weight l)) = in_channels l).
  { pose proof (shape3_size1 Hw Ho) as Hs1. unfold size1 in *.
    destruct (weight l) as [|w_o w]; simpl in *; [destruct Hw; simpl in *; lia|].
    rewrite length_map. exact Hs1. }
  rewrite Hsize.
  replace (forallb (forallb (fun v => length v =? in_channels l)) x) with true.
  2:{ symmetry. apply forallb_true_in. intros x_b Hxb.
      apply forallb_true_in. intros f Hf. apply Nat.eqb_eq.
      destruct Hx as [_ Hrows]. rewrite Forall_forall in Hrows.
      destruct (Hrows x_b Hxb) as [_ Hfr]. rewrite Forall_forall in Hfr.
      apply Hfr. exact Hf. }
  replace (bias_fits (map (map (fun ks => hd zero ks)) (weight l)) (bias l)) with true.
  2:{ rewrite <- Hbias. unfold bias_fits. destruct (bias l); [|reflexivity].
      rewrite length_map. reflexivity. }
  cbn [andb]. f_equal. f_equal.
  replace (conv_out_len t (padding l) (dilation l) (kernel_size l) (stride l)) with t.
  2:{ unfold conv_out_len. rewrite Hk, Hp, Hs. simpl Nat.sub at 2.
      rewrite Nat.mul_0_r, Nat.div_1_r. lia. }
  apply map_ext_in. intros x_b Hxb.
  assert (Hxb' : shape2 t (in_channels l) x_b).
  { destruct Hx as [_ Hrows]. rewrite Forall_forall in Hrows. apply Hrows. exact Hxb. }
  rewrite (map_seq_nth _ x_b []). destruct Hxb' as [Hlen Hfr] eqn:E. clear E.
  rewrite Hlen. apply map_ext_in. intros j Hj. apply in_seq in Hj.
  unfold affine. rewrite with_bias_map, map_map.
  apply map_ext_in. intros wb Hwb. cbn [fst snd]. f_equal.
  apply in_with_bias in Hwb.
  assert (Hwo : shape2 (in_channels l) 1 (fst wb)).
  { destruct Hw as [_ Hrows]. rewrite Forall_forall in Hrows. apply Hrows. exact Hwb. }
  rewrite Hp, Hs.
  apply (@kernel1_projection (in_channels l) t); try assumption; try lia.
Qed.

(** *** Incremental decoding against the causal batch mode *)

Lemma causal_forward_shaped (b t : nat) (l : Layer R) (x : Tensor3 R) :
  well_formed l -> 1 < kernel_size l -> padding l = kernel_size l - 1 ->
  stride l = 1 -> dilation l = 1 ->
  shape3 b t (in_channels l) x -> 1 <= b -> 1 <= t ->
  causal_forward x l
  = (Ok (map (fun x_b =>
            map (fun j =>
                   map (fun wb =>
                          add_bias
                            (conv_at 1 1 j
                               (map (pad_zeros (kernel_size l - 1)) (transpose2 x_b))
                               (fst wb))
                            (snd wb))
                       (with_bias (weight l) (bias l)))
                (seq 0 t))
            x),
     l).
Proof.
  intros Hwf Hk Hp Hs Hd Hx Hb Ht.
  unfold causal_forward, forward. rewrite bind_assoc, bind_gets.
  replace (1 <? kernel_size l) with true by (symmetry; apply Nat.ltb_lt; exact Hk).
  erewrite bind_Ok
    by (apply (forward_conv_shaped Hwf Hx Hb Ht); rewrite Hd, Hp; lia).
  unfold remove_future_timesteps. rewrite !bind_gets.
  replace (1 <? kernel_size l) with true by (symmetry; apply Nat.ltb_lt; exact Hk).
  replace (0 <? padding l) with true by (symmetry; apply Nat.ltb_lt; lia).
  cbn [andb]. unfold ret. f_equal. f_equal.
  unfold drop_last_steps. rewrite map_map. apply map_ext. intros x_b.
  rewrite length_map, length_seq, firstn_map.
  assert (Hlen : conv_out_len t (padding l) (dilation l) (kernel_size l) (stride l)
                 = t + padding l).
  { unfold conv_out_len. rewrite Hs, Hd, Hp, Nat.div_1_r. lia. }
  rewrite Hlen, firstn_seq_le by lia.
  replace (t + padding l - padding l) with t by lia.
  rewrite Hs, Hd, Hp. reflexivity.
Qed.

Lemma frame_at_row (j : nat) (row : list (list R)) :
  j < length row -> firstn 1 (skipn j row) = [nth j row []].
Proof.
  revert row; induction j as [|j IH]; intros [|f row] Hj; simpl in *; try lia.
  - reflexivity.
  - apply IH. lia.
Qed.

Lemma frames_input_frame_at (b t c j : nat) (x : Tensor3 R) :
  shape3 b t c x -> j < t -> frames_input b c (frame_at j x).
Proof.
  intros [Hb Hrows] Hj. exists 1. split; [lia|]. unfold frame_at. split.
  - rewrite length_map. exact Hb.
  - apply Forall_map. apply Forall_impl with (2 := Hrows).
    intros row [Hlen Hfr]. rewrite frame_at_row by lia. split; [reflexivity|].
    constructor; [|constructor].
    rewrite Forall_forall in Hfr. apply Hfr. apply nth_In. lia.
Qed.

Lemma history_frames (b t c i j : nat) (x : Tensor3 R) :
  shape3 b t c x -> i < b -> j < t ->
  history i (firstn (S j) (map (fun j' => frame_at j' x) (seq 0 t)))
  = map (fun j' => nth j' (nth i x []) []) (seq 0 (S j)).
Proof.
  intros Hx Hi Hj. unfold history.
  rewrite firstn_map, firstn_seq_le, map_map by lia.
  apply map_ext_in. intros j' Hj'. apply in_seq in Hj'.
  unfold frame_at.
  rewrite (nth_map_in (fun row => firstn 1 (skipn j' row)) x [] [])
    by (destruct Hx; lia).
  rewrite frame_at_row; [reflexivity|].
  destruct (shape3_nth Hx Hi) as [Hlen _]. lia.
Qed.

Lemma all_ok_map {A B : Type} (f : A -> B) (l : list A) :
  all_ok (map (fun a => Ok (f a)) l) = Ok (map f l).
Proof.
  induction l as [|a l IH]; simpl; [reflexivity|]. rewrite IH. reflexivity.
Qed.

Lemma F_linear_shaped (n o : nat) (input w : Matrix R) (bv : option (list R)) :
  shape2 o n w -> 1 <= o -> Forall (fun v => length v = n) input ->
  bias_fits w bv = true ->
  F_linear input w bv = Ok (map (affine w bv) input).
Proof.
  intros Hw Ho Hin Hb. unfold F_linear.
  rewrite (shape2_size1 Hw Ho), Hb.
  rewrite forallb_true_in; [reflexivity|].
  intros v Hv. rewrite Forall_forall in Hin. rewrite (Hin v Hv).
  apply Nat.eqb_refl.
Qed.

Lemma incremental_decode_shaped (b t : nat) (l : Layer R) (x : Tensor3 R) :
  well_formed l -> cache_coherent l -> training l = false ->
  input_buffer l = None -> 1 < kernel_size l ->
  shape3 b t (in_channels l) x -> 1 <= b -> 1 <= t ->
  fst (incremental_decode x l)
  = Ok (map (fun i =>
          map (fun j =>
                 affine (linearized_spec (weight l)) (bias l)
                   (concat (recent_frames (kernel_size l) (in_channels l)
                              (map (fun j' => nth j' (nth i x []) [])
                                   (seq 0 (S j))))))
              (seq 0 t))
          (seq 0 b)).
Proof.
  intros Hwf Hcoh Htr Hnone Hk Hx Hb Ht.
  pose proof (well_formed_bias_fits Hwf) as Hbias.
  pose proof (served_weight_coherent Hwf Hcoh) as Hserved.
  pose proof Hwf as (Hi & Ho & _ & _ & _ & Hw & _ & _).
  destruct (linearize_shaped Hw Ho Hi) as [_ Hlin].
  assert (Hins : Forall (frames_input b (in_channels l)) (frames x)).
  { unfold frames. rewrite (shape3_size1 Hx Hb). apply Forall_map.
    apply Forall_forall. intros j Hj. apply in_seq in Hj.
    apply (frames_input_frame_at Hx). lia. }
  destruct (@incremental_run_recent b (in_channels l) (frames x) [] l)
    as [Hout _]; try assumption.
  { constructor. }
  { unfold buffer_or_zeros. rewrite Hnone. symmetry. apply recent_buffer_nil. }
  unfold incremental_decode.
  destruct (incremental_run (frames x) l) as [rs l'] eqn:Hrun.
  cbn [fst] in *. subst rs.
  unfold frames. rewrite (shape3_size1 Hx Hb), length_map, length_seq.
  rewrite Hserved.
  transitivity
    (rbind (all_ok (map (fun j => Ok
        (map (fun v => [v])
           (map (affine (linearized_spec (weight l)) (bias l))
              (map (@concat R)
                 (recent_buffer b (kernel_size l) (in_channels l)
                    (firstn (S j) (map (fun j' => frame_at j' x) (seq 0 t))))))))
        (seq 0 t)))
      (fun outs => Ok (cat_time outs))).
  { f_equal. f_equal. apply map_ext_in. intros j Hj. apply in_seq in Hj.
    cbn [app]. rewrite (@F_linear_shaped (kernel_size l * in_channels l) (out_channels l));
      try assumption.
    - reflexivity.
    - apply Forall_map.
      assert (Hrb : shape3 b (kernel_size l) (in_channels l)
                (recent_buffer b (kernel_size l) (in_channels l)
                   (firstn (S j) (map (fun j' => frame_at j' x) (seq 0 t))))).
      { apply shape3_recent_buffer. apply Forall_forall. intros inp Hinp.
        unfold frames in Hins. rewrite (shape3_size1 Hx Hb) in Hins.
        rewrite Forall_forall in Hins. apply Hins.
        rewrite <- (firstn_skipn (S j)). apply in_or_app. left. exact Hinp. }
      destruct Hrb as [_ Hrows]. apply Forall_impl with (2 := Hrows).
      intros row [Hl Hc]. rewrite (length_concat_rect Hc), Hl. reflexivity.
    - rewrite bias_fits_linearized. exact Hbias. }
  rewrite all_ok_map. cbn [rbind]. f_equal.
  unfold cat_time.
  assert (Hhd : size0 (hd [] (map (fun j =>
        map (fun v => [v])
          (map (affine (linearized_spec (weight l)) (bias l))
             (map (@concat R)
                (recent_buffer b (kernel_size l) (in_channels l)
                   (firstn (S j) (map (fun j' => frame_at j' x) (seq 0 t)))))))
        (seq 0 t))) = b).
  { destruct t as [|t']; [lia|]. cbn [seq map hd]. unfold size0, recent_buffer.
    rewrite !length_map, length_seq. reflexivity. }
  rewrite Hhd. apply map_ext_in. intros i Hib. apply in_seq in Hib.
  rewrite map_map.
  rewrite <- (concat_map_singleton
    (fun j => affine (linearized_spec (weight l)) (bias l)
       (concat (recent_frames (kernel_size l) (in_channels l)
          (map (fun j' => nth j' (nth i x []) []) (seq 0 (S j))))))).
  f_equal. apply map_ext_in. intros j Hj. apply in_seq in Hj.
  rewrite !map_map. unfold recent_buffer. rewrite map_map.
  rewrite (nth_map_seq _ []) by lia.
  rewrite (history_frames Hx) by lia. reflexivity.
Qed.

(** The entry of the zero-padded, transposed sequence that the convolution
    reads at step [j], tap [k], is the entry of the rolling window after
    [j + 1] incremental steps. *)
Lemma causal_window_entry (kk cc t j k c' : nat) (x_i : Matrix R) :
  shape2 t cc x_i -> 1 <= kk -> j < t -> k < kk -> c' < cc ->
  nth (j * 1 + k * 1) (nth c' (map (pad_zeros (kk - 1)) (transpose2 x_i)) []) zero
  = nth c' (nth k (recent_frames kk cc
                     (map (fun j' => nth j' x_i []) (seq 0 (S j)))) []) zero.
Proof.
  intros Hx Hkk Hj Hk Hc.
  assert (Ht : 1 <= t) by lia.
  pose proof (shape2_transpose2 Hx Ht) as [HTlen _].
  rewrite (nth_map_in (pad_zeros (kk - 1)) (transpose2 x_i) [] []) by lia.
  rewrite (nth_transpose2 Hx Ht Hc).
  unfold pad_zeros, recent_frames.
  rewrite nth_skipn, length_map, length_seq.
  replace (j * 1 + k * 1) with (j + k) by lia.
  destruct Hx as [Hlen Hrows].
  destruct (Nat.lt_ge_cases (j + k) (kk - 1)) as [Hlt|Hge].
  - rewrite app_nth1 by (rewrite repeat_length; lia).
    rewrite nth_repeat_lt by lia.
    rewrite app_nth1 by (rewrite repeat_length; lia).
    rewrite nth_repeat_lt by lia.
    symmetry. apply nth_repeat_lt. exact Hc.
  - rewrite app_nth2 by (rewrite repeat_length; lia).
    rewrite repeat_length.
    rewrite app_nth1 by (rewrite length_map; lia).
    rewrite (nth_map_in (fun row => nth c' row zero) x_i [] zero) by lia.
    rewrite app_nth2 by (rewrite repeat_length; lia).
    rewrite repeat_length.
    rewrite (nth_map_seq _ []) by lia.
    replace (S j + k - kk) with (j + k - (kk - 1)) by lia.
    reflexivity.
Qed.

(** C1 (amended).  With kernel width above 1, causal padding
    ([padding = kernel_size - 1]), stride 1 and dilation 1, on a layer in
    inference mode with a cleared buffer: one [incremental_forward] per time
    step of a sequence of shape [(b, t, in_channels)], the outputs
    concatenated along the time axis, gives the output of
    [remove_future_timesteps(forward(x))] on the whole sequence.

    The state of the layer enters through two conditions.  The layer is
    well-formed: its parameters have the shapes the constructor gives them
    and no forward pre-hook is registered (a hook would adjust the weight
    inside [incremental_forward]; the method [forward] runs none).  And the cache is
    coherent: it is empty or holds the linearization of the current weight.
    A cache filled before the weight was last assigned, with no backward pass
    since, is served as it is by [_get_linearized_weight], and the
    incremental outputs then belong to the old weight; [clear_buffer] does
    not touch the cache. *)
Theorem incremental_decode_is_causal_forward (b t : nat) (l : Layer R)
    (x : Tensor3 R) :
  well_formed l -> cache_coherent l -> training l = false ->
  input_buffer l = None ->
  1 < kernel_size l -> padding l = kernel_size l - 1 ->
  stride l = 1 -> dilation l = 1 ->
  shape3 b t (in_channels l) x -> 1 <= b -> 1 <= t ->
  exists y,
    fst (incremental_decode x l) = Ok y /\
    fst (causal_forward x l) = Ok y /\
    shape3 b t (out_channels l) y.
Proof.
  intros Hwf Hcoh Htr Hnone Hk Hp Hs Hd Hx Hb Ht.
  rewrite (incremental_decode_shaped Hwf Hcoh Htr Hnone Hk Hx Hb Ht).
  rewrite (causal_forward_shaped Hwf Hk Hp Hs Hd Hx Hb Ht).
  pose proof (well_formed_bias_fits Hwf) as Hbias.
  pose proof Hwf as (Hi & Ho & _ & _ & _ & Hw & _ & _).
  eexists. split; [reflexivity|]. split.
  - cbn [fst]. f_equal.
    rewrite (map_seq_nth _ x []). destruct Hx as [Hxlen Hxrows] eqn:E. clear E.
    rewrite Hxlen. apply map_ext_in. intros i Hib. apply in_seq in Hib.
    apply map_ext_in. intros j Hj. apply in_seq in Hj.
    unfold affine, linearized_spec. rewrite with_bias_map, map_map.
    apply map_ext_in. intros wb Hwb. cbn [fst snd]. f_equal.
    apply in_with_bias in Hwb.
    assert (Hwo : shape2 (in_channels l) (kernel_size l) (fst wb)).
    { destruct Hw as [_ Hrows]. rewrite Forall_forall in Hrows.
      apply Hrows. exact Hwb. }
    assert (Hxi : shape2 t (in_channels l) (nth i x [])).
    { apply (shape3_nth (conj Hxlen Hxrows)). lia. }
    symmetry.
    apply window_projection with (kk := kernel_size l) (cc := in_channels l).
    + split; [apply length_recent_frames|].
      apply Forall_forall. intros f Hf.
      assert (Hin : In f (repeat (repeat zero (in_channels l)) (kernel_size l)
                          ++ map (fun j' => nth j' (nth i x []) []) (seq 0 (S j)))).
      { unfold recent_frames in Hf.
        rewrite <- (firstn_skipn (length (map (fun j' => nth j' (nth i x []) [])
                                            (seq 0 (S j))))).
        apply in_or_app. right. exact Hf. }
      apply in_app_or in Hin. destruct Hin as [Hz|Hh].
      * apply repeat_spec in Hz. subst f. apply repeat_length.
      * apply in_map_iff in Hh. destruct Hh as [j' [Hf' Hj']]. subst f.
        apply in_seq in Hj'. apply (shape2_nth Hxi). lia.
    + exact Hwo.
    + rewrite length_map. apply (shape2_transpose2 Hxi Ht).
    + exact Hi.
    + intros c' k Hc' Hk'.
      apply (@causal_window_entry (kernel_size l) (in_channels l) t);
        try assumption; lia.
  - split; [rewrite length_map, length_seq; reflexivity|].
    apply Forall_map. apply Forall_forall. intros i _.
    split; [rewrite length_map, length_seq; reflexivity|].
    apply Forall_map. apply Forall_forall. intros j _.
    unfold affine. rewrite length_map.
    rewrite length_with_bias by (rewrite bias_fits_linearized; exact Hbias).
    unfold linearized_spec. rewrite length_map. apply Hw.
Qed.

(** *** What the methods can change *)

Section Steps.
Variable Rel : Layer R -> Layer R -> Prop.
Hypothesis Rel_refl : forall l, Rel l l.
Hypothesis Rel_trans : forall l1 l2 l3, Rel l1 l2 -> Rel l2 l3 -> Rel l1 l3.
Hypothesis Rel_buffer : forall buf l, Rel l (set_input_buffer buf l).
Hypothesis Rel_clear : forall l, Rel l (set_linearized_weight None l).
Hypothesis Rel_get : steps_in Rel _get_linearized_weight.
Hypothesis Rel_hooks : forall input, steps_in Rel (run_forward_pre_hooks input).

Lemma steps_ret {A : Type} (a : A) : steps_in Rel (ret a).
Proof. intros l. apply Rel_refl. Qed.

Lemma steps_raise {A : Type} (e : exn) : steps_in Rel (@raise R A e).
Proof. intros l. apply Rel_refl. Qed.

Lemma steps_gets {A : Type} (f : Layer R -> A) : steps_in Rel (gets f).
Proof. intros l. apply Rel_refl. Qed.

Lemma steps_lift {A : Type} (r : result A) : steps_in Rel (lift r).
Proof. intros l. apply Rel_refl. Qed.

Lemma steps_set_buffer (buf : option (Tensor3 R)) :
  steps_in Rel (modify (set_input_buffer buf)).
Proof. intros l. apply Rel_buffer. Qed.

Lemma steps_bind {A B : Type} (m : M R A) (f : A -> M R B) :
  steps_in Rel m -> (forall a, steps_in Rel (f a)) -> steps_in Rel (bind m f).
Proof.
  intros Hm Hf l. unfold bind. specialize (Hm l).
  destruct (m l) as [[a|e] l1]; simpl in *.
  - apply (Rel_trans Hm). apply Hf.
  - exact Hm.
Qed.

Ltac steps :=
  repeat first
    [ apply steps_ret | apply steps_raise | apply steps_gets | apply steps_lift
    | apply steps_set_buffer | apply Rel_get
    | apply steps_bind; [|intros ?]
    | match goal with
      | |- steps_in _ (match ?x with _ => _ end) => destruct x
      end ].

Lemma steps_forward (x : Tensor3 R) : steps_in Rel (forward x).
Proof. unfold forward, forward_conv, forward_linear. steps. Qed.

Lemma steps_remove_future_timesteps (x : Tensor3 R) :
  steps_in Rel (remove_future_timesteps x).
Proof. unfold remove_future_timesteps. steps. Qed.

Lemma steps_incremental_body (input : Tensor3 R) :
  steps_in Rel (incremental_body input).
Proof. unfold incremental_body. steps. Qed.

Lemma steps_incremental_forward (input : Tensor3 R) :
  steps_in Rel (incremental_forward input).
Proof.
  unfold incremental_forward.
  apply steps_bind; [apply steps_gets|intros tr].
  destruct tr; [apply steps_raise|].
  apply steps_bind; [apply Rel_hooks|intros _].
  apply steps_incremental_body.
Qed.

Lemma steps_clear_buffer : steps_in Rel clear_buffer.
Proof. unfold clear_buffer. steps. Qed.

Lemma steps_reorder_buffer (new_order : list nat) :
  steps_in Rel (reorder_buffer new_order).
Proof. unfold reorder_buffer. steps. Qed.

Lemma steps_backward : steps_in Rel backward.
Proof.
  unfold backward. apply steps_bind; [apply steps_gets|intros hooks].
  induction hooks as [|h hooks IH]; simpl; [apply steps_ret|].
  apply steps_bind; [|intros _; exact IH].
  destruct h. intros l. apply Rel_clear.
Qed.

Lemma steps_run_call (c : call) :
  keeps_parameters c = true -> forall l, Rel l (run_call c l).
Proof.
  destruct c; simpl; intros Hc l; try discriminate.
  - apply steps_forward.
  - apply steps_remove_future_timesteps.
  - apply steps_incremental_forward.
  - apply steps_clear_buffer.
  - apply steps_reorder_buffer.
  - apply steps_backward.
Qed.

Lemma steps_run_calls (cs : list call) :
  forallb keeps_parameters cs = true -> forall l, Rel l (run_calls cs l).
Proof.
  induction cs as [|c cs IH]; simpl; intros Hcs l; [apply Rel_refl|].
  apply andb_true_iff in Hcs. destruct Hcs as [Hc Hcs].
  apply (Rel_trans (steps_run_call c Hc l)). apply IH. exact Hcs.
Qed.

End Steps.

(** *** A cleared layer against a fresh one *)


Lemma tracks_set_input_buffer (l0 : Layer R) (buf : option (Tensor3 R)) (l : Layer R) :
  tracks l0 l -> tracks l0 (set_input_buffer buf l).
Proof. intros Ht. exact Ht. Qed.

Lemma tracks_clear_cache (l0 l : Layer R) :
  tracks l0 l -> tracks l0 (set_linearized_weight None l).
Proof.
  intros (Hp & _ & Hh). split; [exact Hp|]. split; [exact I|exact Hh].
Qed.

Lemma tracks_get_linearized_weight (l0 l : Layer R) :
  tracks l0 l -> tracks l0 (snd (_get_linearized_weight l)).
Proof.
  intros (Hp & Hc & Hh). unfold _get_linearized_weight. rewrite bind_gets.
  destruct (_linearized_weight l) as [lw|] eqn:Hcache.
  - split; [exact Hp|]. split; assumption.
  - rewrite bind_gets. destruct (linearize (weight l)) as [lw|e] eqn:Hlin.
    + rewrite bind_lift_Ok, bind_modify. split; [exact Hp|].
      split; [exact Hlin|exact Hh].
    + rewrite bind_lift_Raise. split; [exact Hp|]. split; assumption.
Qed.

Lemma tracks_hooks (l0 : Layer R) (input : Tensor3 R) (l : Layer R) :
  tracks l0 l -> tracks l0 (snd (run_forward_pre_hooks input l)).
Proof.
  intros Ht. pose proof Ht as (_ & _ & Hh).
  rewrite (run_forward_pre_hooks_none input l Hh). exact Ht.
Qed.

Lemma tracks_incremental_forward (l0 : Layer R) (input : Tensor3 R) (l : Layer R) :
  tracks l0 l -> tracks l0 (snd (incremental_forward input l)).
Proof.
  apply (@steps_incremental_forward (fun l l' => tracks l0 l -> tracks l0 l')).
  - intros l1 Ht. exact Ht.
  - intros l1 l2 l3 H12 H23 Ht. apply H23, H12, Ht.
  - intros buf l1. apply tracks_set_input_buffer.
  - intros l1. apply tracks_get_linearized_weight.
  - intros x l1. apply tracks_hooks.
Qed.

Lemma tracks_run_calls (l0 : Layer R) (cs : list call) (l : Layer R) :
  forallb keeps_parameters cs = true ->
  tracks l0 l -> tracks l0 (run_calls cs l).
Proof.
  intros Hcs.
  apply (@steps_run_calls (fun l l' => tracks l0 l -> tracks l0 l')).
  - intros l1 Ht. exact Ht.
  - intros l1 l2 l3 H12 H23 Ht. apply H23, H12, Ht.
  - intros buf l1. apply tracks_set_input_buffer.
  - intros l1. apply tracks_clear_cache.
  - intros l1. apply tracks_get_linearized_weight.
  - intros x l1. apply tracks_hooks.
  - exact Hcs.
Qed.

Lemma same_up_to_cache (l l' : Layer R) (c : option (Matrix R)) :
  params_of l = params_of l' -> input_buffer l = input_buffer l' ->
  set_linearized_weight c l = set_linearized_weight c l'.
Proof.
  destruct l, l'. unfold params_of, set_input_buffer, set_linearized_weight.
  simpl. intros Hp Hb. inversion Hp. subst. reflexivity.
Qed.

Lemma set_cache_same (l : Layer R) (c : option (Matrix R)) :
  _linearized_weight l = c -> set_linearized_weight c l = l.
Proof. destruct l. simpl. intros Hc. subst c. reflexivity. Qed.

Lemma get_linearized_weight_coherent (l : Layer R) :
  cache_coherent l ->
  match linearize (weight l) with
  | Ok lw => _get_linearized_weight l
             = (Ok lw, set_linearized_weight (Some lw) l)
  | Raise e => _get_linearized_weight l = (Raise e, l)
  end.
Proof.
  unfold cache_coherent, _get_linearized_weight. rewrite bind_gets.
  destruct (_linearized_weight l) as [c|] eqn:Hcache; intros Hcoh.
  - rewrite Hcoh. unfold ret. rewrite set_cache_same by exact Hcache.
    reflexivity.
  - rewrite bind_gets. destruct (linearize (weight l)); reflexivity.
Qed.

Lemma incremental_forward_agree (l0 l l' : Layer R) (input : Tensor3 R) :
  tracks l0 l -> tracks l0 l' -> input_buffer l = input_buffer l' ->
  fst (incremental_forward input l) = fst (incremental_forward input l') /\
  input_buffer (snd (incremental_forward input l))
  = input_buffer (snd (incremental_forward input l')).
Proof.
  intros (Hp & Hc & Hh) (Hp' & Hc' & Hh') Hbuf.
  assert (Hpp : params_of l = params_of l') by congruence.
  assert (Htr : training l = training l').
  { apply (f_equal (@training R)) in Hpp. exact Hpp. }
  assert (Hw : weight l = weight l').
  { apply (f_equal (@weight R)) in Hpp. exact Hpp. }
  unfold incremental_forward, incremental_body. rewrite !bind_gets, <- Htr.
  destruct (training l); [split; [reflexivity|exact Hbuf]|].
  rewrite !bind_hooks_none by assumption.
  pose proof (@get_linearized_weight_coherent l Hc) as Hget.
  pose proof (@get_linearized_weight_coherent l' Hc') as Hget'.
  rewrite <- Hw in Hget'.
  destruct (linearize (weight l)) as [lw|e].
  - rewrite (@bind_Ok _ _ _get_linearized_weight _ l _ lw Hget).
    rewrite (@bind_Ok _ _ _get_linearized_weight _ l' _ lw Hget').
    rewrite (@same_up_to_cache l l' (Some lw) Hpp Hbuf).
    split; reflexivity.
  - rewrite (@bind_Raise _ _ _get_linearized_weight _ l _ e Hget).
    rewrite (@bind_Raise _ _ _get_linearized_weight _ l' _ e Hget').
    split; [reflexivity|exact Hbuf].
Qed.

Lemma incremental_run_agree (l0 : Layer R) (xs : list (Tensor3 R)) :
  forall l l', tracks l0 l -> tracks l0 l' -> input_buffer l = input_buffer l' ->
    fst (incremental_run xs l) = fst (incremental_run xs l').
Proof.
  induction xs as [|x xs IH]; intros l l' Ht Ht' Hbuf; [reflexivity|].
  rewrite !incremental_run_cons. cbn [fst].
  destruct (@incremental_forward_agree l0 l l' x Ht Ht' Hbuf) as [Hout Hbuf'].
  rewrite Hout. f_equal.
  apply IH; [apply tracks_incremental_forward; exact Ht
            |apply tracks_incremental_forward; exact Ht'|exact Hbuf'].
Qed.

(** C8.  Take a layer as the constructor leaves it, in either mode.  After
    any prior activity that leaves the parameters and the mode alone
    (incremental steps, reorderings, forward and backward passes ...),
    [clear_buffer] puts the layer in a state from which every sequence of
    [incremental_forward] calls returns exactly what it returns on the fresh
    layer. *)
Theorem clear_buffer_forgets (cin cout k : nat) (kwargs : Kwargs)
    (w0 : nat -> nat -> nat -> R) (b0 : nat -> R) (mode : bool)
    (prior : list call) (xs : list (Tensor3 R)) :
  forallb keeps_parameters prior = true ->
  fst (incremental_run xs
         (snd (clear_buffer
                 (run_calls prior
                    (snd (train mode (__init__ cin cout k kwargs w0 b0)))))))
  = fst (incremental_run xs (snd (train mode (__init__ cin cout k kwargs w0 b0)))).
Proof.
  intros Hprior.
  set (fresh := snd (train mode (__init__ cin cout k kwargs w0 b0))).
  assert (Hfresh : tracks fresh fresh).
  { split; [reflexivity|]. split; [exact I|reflexivity]. }
  apply (@incremental_run_agree fresh).
  - apply tracks_set_input_buffer. apply tracks_run_calls; assumption.
  - exact Hfresh.
  - reflexivity.
Qed.

(** *** The cache across backward passes *)

Lemma run_calls_snoc (cs : list call) (c : call) (l : Layer R) :
  run_calls (cs ++ [c]) l = run_call c (run_calls cs l).
Proof. unfold run_calls. rewrite fold_left_app. reflexivity. Qed.


Lemma backward_hooks_get :
  steps_in (fun l l' : Layer R => _backward_hooks l' = _backward_hooks l)
           _get_linearized_weight.
Proof.
  intros l. unfold _get_linearized_weight. rewrite bind_gets.
  destruct (_linearized_weight l); [reflexivity|].
  rewrite bind_gets. destruct (linearize (weight l)); reflexivity.
Qed.

Lemma backward_hooks_run_call (c : call) (l : Layer R) :
  _backward_hooks (run_call c l) = _backward_hooks l.
Proof.
  destruct (keeps_parameters c) eqn:Hc.
  - revert l.
    apply (@steps_run_call (fun l l' => _backward_hooks l' = _backward_hooks l));
      try (intros; reflexivity); try exact Hc.
    + intros l1 l2 l3 H12 H23. congruence.
    + exact backward_hooks_get.
    + intros input l1. reflexivity.
  - destruct c; try discriminate; reflexivity.
Qed.

Lemma backward_hooks_run_calls (cs : list call) (l : Layer R) :
  _backward_hooks (run_calls cs l) = _backward_hooks l.
Proof.
  revert l; induction cs as [|c cs IH]; intros l; [reflexivity|].
  simpl. rewrite IH. apply backward_hooks_run_call.
Qed.

Lemma backward_clears (l : Layer R) :
  _backward_hooks l <> [] -> _linearized_weight (snd (backward l)) = None.
Proof.
  intros Hne. unfold backward. rewrite bind_gets.
  assert (Hgen : forall hs (s : Layer R),
            hs <> [] \/ _linearized_weight s = None ->
            _linearized_weight
              (snd (fold_right (fun h k => call_backward_hook h ;; k) (ret tt) hs s))
            = None).
  { induction hs as [|h hs IH]; intros s Hs; simpl.
    - destruct Hs as [Hs|Hs]; [contradiction Hs; reflexivity|exact Hs].
    - destruct h. unfold call_backward_hook, _clear_linearized_weight.
      rewrite bind_modify. apply IH. right. reflexivity. }
  apply Hgen. left. exact Hne.
Qed.

Lemma cache_step_refl (l : Layer R) : cache_step l l.
Proof. split; [reflexivity|left; reflexivity]. Qed.

Lemma cache_step_trans (l1 l2 l3 : Layer R) :
  cache_step l1 l2 -> cache_step l2 l3 -> cache_step l1 l3.
Proof.
  intros [Hw12 H12] [Hw23 H23]. split; [congruence|].
  destruct H23 as [Hsame|[Hnone|Hnew]].
  - rewrite Hsame. destruct H12 as [Hc|[Hc|[lw [Hc Hlin]]]].
    + left. exact Hc.
    + right. left. exact Hc.
    + right. right. exists lw. split; [exact Hc|]. rewrite Hw23. exact Hlin.
  - right. left. exact Hnone.
  - right. right. exact Hnew.
Qed.

Lemma cache_step_get : steps_in cache_step _get_linearized_weight.
Proof.
  intros l. unfold _get_linearized_weight. rewrite bind_gets.
  destruct (_linearized_weight l) as [c|] eqn:Hc; [apply cache_step_refl|].
  rewrite bind_gets. destruct (linearize (weight l)) as [lw|e] eqn:Hlin.
  - rewrite bind_lift_Ok, bind_modify. split; [reflexivity|].
    right. right. exists lw. split; [reflexivity|exact Hlin].
  - apply cache_step_refl.
Qed.

Lemma cache_step_buffer (buf : option (Tensor3 R)) (l : Layer R) :
  cache_step l (set_input_buffer buf l).
Proof. split; [reflexivity|left; reflexivity]. Qed.

Lemma cache_step_clear (l : Layer R) : cache_step l (set_linearized_weight None l).
Proof. split; [reflexivity|right; left; reflexivity]. Qed.

Lemma cache_step_origin (l l' : Layer R) (lw : Matrix R) :
  cache_step l l' -> _linearized_weight l' = Some lw ->
  _linearized_weight l = Some lw \/ linearize (weight l') = Ok lw.
Proof.
  intros [_ [Hsame|[Hnone|[lw' [Hnew Hlin]]]]] Hc.
  - left. congruence.
  - congruence.
  - right. congruence.
Qed.

(** After one call, a filled cache is either what it was before the call or
    the linearization of the weight the call leaves. *)
Lemma cache_origin_call (c : call) (l : Layer R) (lw : Matrix R) :
  _linearized_weight (run_call c l) = Some lw ->
  _linearized_weight l = Some lw \/ linearize (weight (run_call c l)) = Ok lw.
Proof.
  destruct c; simpl.
  - apply cache_step_origin.
    apply (@steps_forward cache_step cache_step_refl cache_step_trans).
  - apply cache_step_origin.
    apply (@steps_remove_future_timesteps cache_step cache_step_refl cache_step_trans).
  - unfold incremental_forward. rewrite bind_gets.
    destruct (training l); [intros Hc; left; exact Hc|].
    unfold run_forward_pre_hooks. rewrite bind_modify.
    intros Hc.
    destruct (cache_step_origin
                (@steps_incremental_body cache_step cache_step_refl cache_step_trans
                   cache_step_buffer cache_step_get input _) Hc) as [Hold|Hnew].
    + left. exact Hold.
    + right. exact Hnew.
  - apply cache_step_origin.
    apply (@steps_clear_buffer cache_step cache_step_buffer).
  - apply cache_step_origin.
    apply (@steps_reorder_buffer cache_step cache_step_refl cache_step_trans cache_step_buffer).
  - intros Hc. left. exact Hc.
  - apply cache_step_origin.
    apply (@steps_backward cache_step cache_step_refl cache_step_trans cache_step_clear).
  - intros Hc. left. exact Hc.
Qed.

Lemma cache_origin (cs : list call) :
  forall (l : Layer R) (lw : Matrix R),
    _linearized_weight (run_calls cs l) = Some lw ->
    _linearized_weight l = Some lw \/
    exists n, n <= length cs /\
              linearize (weight (run_calls (firstn n cs) l)) = Ok lw.
Proof.
  induction cs as [|c cs IH] using rev_ind; intros l lw Hc.
  - left. exact Hc.
  - rewrite run_calls_snoc in Hc.
    destruct (cache_origin_call c _ Hc) as [Hold|Hnew].
    + destruct (IH l lw Hold) as [Hl|[n [Hn Hlin]]]; [left; exact Hl|].
      right. exists n. split; [rewrite length_app; lia|].
      rewrite firstn_app. replace (n - length cs) with 0 by lia.
      simpl firstn. rewrite app_nil_r. exact Hlin.
    + right. exists (length (cs ++ [c])). split; [lia|].
      rewrite firstn_all, run_calls_snoc. exact Hnew.
Qed.

Lemma cache_stays_empty_call (c : call) (l : Layer R) :
  obtains_linearized_weight c = false ->
  _linearized_weight l = None -> _linearized_weight (run_call c l) = None.
Proof.
  pose (Rel := fun l l' : Layer R =>
                 _linearized_weight l = None -> _linearized_weight l' = None).
  assert (Hrefl : forall l1, Rel l1 l1) by (intros l1 H1; exact H1).
  assert (Htrans : forall l1 l2 l3, Rel l1 l2 -> Rel l2 l3 -> Rel l1 l3)
    by (intros l1 l2 l3 H12 H23 H1; apply H23, H12, H1).
  assert (Hbuf : forall buf l1, Rel l1 (set_input_buffer buf l1))
    by (intros buf l1 H1; exact H1).
  assert (Hclear : forall l1, Rel l1 (set_linearized_weight None l1))
    by (intros l1 _; reflexivity).
  destruct c; simpl; intros Hc; try discriminate.
  - apply (@steps_forward Rel Hrefl Htrans).
  - apply (@steps_remove_future_timesteps Rel Hrefl Htrans).
  - apply (@steps_clear_buffer Rel Hbuf).
  - apply (@steps_reorder_buffer Rel Hrefl Htrans Hbuf).
  - intros Hn. exact Hn.
  - apply (@steps_backward Rel Hrefl Htrans Hclear).
  - intros Hn. exact Hn.
Qed.

Lemma cache_stays_empty (cs : list call) :
  forall l : Layer R,
    forallb (fun c => negb (obtains_linearized_weight c)) cs = true ->
    _linearized_weight l = None -> _linearized_weight (run_calls cs l) = None.
Proof.
  induction cs as [|c cs IH]; intros l Hcs Hl; [exact Hl|].
  simpl in Hcs. apply andb_true_iff in Hcs. destruct Hcs as [Hc Hcs].
  simpl. apply IH; [exact Hcs|].
  apply cache_stays_empty_call; [|exact Hl].
  destruct (obtains_linearized_weight c); [discriminate|reflexivity].
Qed.

Lemma get_linearized_weight_empty (l : Layer R) :
  _linearized_weight l = None ->
  fst (_get_linearized_weight l) = linearize (weight l).
Proof.
  intros Hc. unfold _get_linearized_weight. rewrite bind_gets, Hc, bind_gets.
  destruct (linearize (weight l)); reflexivity.
Qed.

(** C9.  On a layer built by the constructor, after any calls:
    - a backward pass leaves the cache empty;
    - as long as no later call asks for the linearized weight the cache stays
      empty, and the next request returns the linearization of the weight
      current at that moment;
    - a cache found filled after the backward pass holds the linearization
      of a weight that was current at some point after that pass;
    - and, backward pass or not, a filled cache holds the linearization of
      a weight that was current at some point of the layer's life. *)
Theorem backward_invalidates_cache (cin cout k : nat) (kwargs : Kwargs)
    (w0 : nat -> nat -> nat -> R) (b0 : nat -> R) (before later : list call) :
  let s := run_calls (before ++ [Call_backward])
                     (__init__ cin cout k kwargs w0 b0) in
  _linearized_weight s = None /\
  (forallb (fun c => negb (obtains_linearized_weight c)) later = true ->
   _linearized_weight (run_calls later s) = None /\
   fst (_get_linearized_weight (run_calls later s))
   = linearize (weight (run_calls later s))) /\
  (forall lw, _linearized_weight (run_calls later s) = Some lw ->
     exists n, n <= length later /\
               linearize (weight (run_calls (firstn n later) s)) = Ok lw) /\
  (forall lw,
     _linearized_weight (run_calls before (__init__ cin cout k kwargs w0 b0))
     = Some lw ->
     exists n, n <= length before /\
               linearize (weight (run_calls (firstn n before)
                                    (__init__ cin cout k kwargs w0 b0)))
               = Ok lw).
Proof.
  intros s.
  assert (Hs : _linearized_weight s = None).
  { unfold s. rewrite run_calls_snoc. simpl run_call.
    apply backward_clears. rewrite backward_hooks_run_calls.
    simpl. discriminate. }
  split; [exact Hs|]. split; [|split].
  - intros Hlater.
    pose proof (cache_stays_empty later s Hlater Hs) as Hempty.
    split; [exact Hempty|]. apply get_linearized_weight_empty. exact Hempty.
  - intros lw Hc. destruct (@cache_origin later s lw Hc) as [Hold|Hnew].
    + congruence.
    + exact Hnew.
  - intros lw Hc.
    destruct (@cache_origin before _ lw Hc) as [Hold|Hnew].
    + simpl in Hold. discriminate.
    + exact Hnew.
Qed.

End Properties.

(** * Further properties of the methods *)

Section FurtherProperties.
Context {R : Type} `{Scalar R}.

(** ** Construction and the class invariant *)

Lemma well_formed_get :
  steps_in (fun l l' : Layer R => well_formed l -> well_formed l')
           _get_linearized_weight.
Proof.
  intros l Hwf. unfold _get_linearized_weight. rewrite bind_gets.
  destruct (_linearized_weight l); [exact Hwf|].
  rewrite bind_gets. destruct (linearize (weight l)); exact Hwf.
Qed.

Lemma well_formed_hooks (input : Tensor3 R) :
  steps_in (fun l l' : Layer R => well_formed l -> well_formed l')
           (run_forward_pre_hooks input).
Proof.
  intros l Hwf. pose proof Hwf as (_ & _ & _ & _ & _ & _ & _ & Hh).
  rewrite (run_forward_pre_hooks_none input l Hh). exact Hwf.
Qed.

(** X2.  No method breaks the class invariant: after any sequence of calls
    other than a direct assignment of parameters, a well-formed layer is
    well-formed. *)
Theorem well_formed_run_calls (cs : list call) (l : Layer R) :
  forallb (fun c => negb (is_update c)) cs = true ->
  well_formed l -> well_formed (run_calls cs l).
Proof.
  revert l; induction cs as [|c cs IH]; intros l Hcs Hwf; [exact Hwf|].
  simpl in Hcs. apply andb_true_iff in Hcs. destruct Hcs as [Hc Hcs].
  simpl. apply IH; [exact Hcs|].
  destruct (keeps_parameters c) eqn:Hkeep.
  - revert Hwf.
    apply (@steps_run_call R _ (fun l l' => well_formed l -> well_formed l'));
      try exact Hkeep.
    + intros l1 H1. exact H1.
    + intros l1 l2 l3 H12 H23 H1. apply H23, H12, H1.
    + intros buf l1 H1. exact H1.
    + intros l1 H1. exact H1.
    + exact well_formed_get.
    + exact well_formed_hooks.
  - destruct c; try discriminate. exact Hwf.
Qed.

(** ** Kernel width 1 *)


Lemma forward_linear_shaped (b t : nat) (l : Layer R) (x : Tensor3 R) :
  well_formed l -> kernel_size l = 1 -> shape3 b t (in_channels l) x ->
  forward_linear x l
  = (Ok (map (map (affine (map (map (fun ks => hd zero ks)) (weight l)) (bias l))) x),
     l).
Proof.
  intros Hwf Hk Hx.
  pose proof (well_formed_bias_fits Hwf) as Hbias.
  destruct Hwf as (Hi & Ho & _ & _ & _ & Hw & _ & _).
  rewrite Hk in Hw.
  unfold forward_linear. rewrite !bind_gets.
  unfold squeeze2. rewrite (shape3_size2 Hw Ho Hi). simpl Nat.eqb. cbv iota.
  rewrite bind_lift_Ok. unfold lift, F_linear3.
  assert (Hsize : size1 (map (map (fun ks => hd zero ks)) (weight l)) = in_channels l).
  { pose proof (shape3_size1 Hw Ho) as Hs1. unfold size1 in *.
    destruct (weight l) as [|w_o w]; simpl in *; [destruct Hw; simpl in *; lia|].
    rewrite length_map. exact Hs1. }
  rewrite Hsize.
  replace (forallb (forallb (fun v => length v =? in_channels l)) x) with true.
  2:{ symmetry. apply forallb_true_in. intros x_b Hxb.
      apply forallb_true_in. intros f Hf. apply Nat.eqb_eq.
      destruct Hx as [_ Hrows]. rewrite Forall_forall in Hrows.
      destruct (Hrows x_b Hxb) as [_ Hfr]. rewrite Forall_forall in Hfr.
      apply Hfr. exact Hf. }
  replace (bias_fits (map (map (fun ks => hd zero ks)) (weight l)) (bias l)) with true.
  2:{ rewrite <- Hbias. unfold bias_fits. destruct (bias l); [|reflexivity].
      rewrite length_map. reflexivity. }
  reflexivity.
Qed.

Lemma incremental_forward_kernel1_run (b t : nat) (l : Layer R) (x : Tensor3 R) :
  well_formed l -> training l = false -> kernel_size l = 1 ->
  shape3 b t (in_channels l) x -> 1 <= b ->
  incremental_forward x l
  = (rbind (F_linear (map (@concat R) x) (served_weight l) (bias l))
           (fun o => Ok (map (fun v => [v]) o)),
     set_linearized_weight (Some (served_weight l)) l).
Proof.
  intros Hwf Htr Hk Hx Hb.
  pose proof Hwf as (_ & _ & _ & _ & _ & _ & _ & Hhooks).
  unfold incremental_forward, incremental_body.
  rewrite bind_gets, Htr, bind_hooks_none by exact Hhooks.
  rewrite bind_get_served by exact Hwf.
  rewrite bind_gets. simpl kernel_size. rewrite Hk.
  change (1 <? 1) with false. cbv iota.
  rewrite bind_ret, bind_gets.
  destruct Hx as [Hlen Hrows] eqn:E. clear E. unfold size0. rewrite Hlen.
  rewrite (view_rows_shaped (conj Hlen Hrows) Hb), bind_lift_Ok.
  simpl bias.
  destruct (F_linear _ _ _); reflexivity.
Qed.


(** X4.  With kernel width 1 an input of two or more frames is rejected:
    the flattened input has [t] times the features the projection takes.
    The call raises a tensor error, after the cache was filled; no buffer is
    allocated. *)
Theorem incremental_forward_kernel1_rejects_frames (b t : nat) (l : Layer R)
    (x : Tensor3 R) :
  well_formed l -> cache_coherent l -> training l = false ->
  kernel_size l = 1 -> shape3 b t (in_channels l) x -> 1 <= b -> 2 <= t ->
  incremental_forward x l
  = (Raise TensorError,
     set_linearized_weight (Some (linearized_spec (weight l))) l).
Proof.
  intros Hwf Hcoh Htr Hk Hx Hb Ht.
  pose proof (served_weight_coherent Hwf Hcoh) as Hserved.
  pose proof Hwf as (Hi & Ho & _ & _ & _ & Hw & _ & _).
  destruct (linearize_shaped Hw Ho Hi) as [_ Hlin].
  rewrite (incremental_forward_kernel1_run Hwf Htr Hk Hx Hb), Hserved.
  unfold F_linear. rewrite (shape2_size1 Hlin Ho), Hk.
  destruct Hx as [Hlen Hrows].
  destruct x as [|row x]; [simpl in Hlen; lia|].
  inversion Hrows as [|? ? Hrow _]; subst. destruct Hrow as [Hl Hc].
  cbn [map forallb]. rewrite (length_concat_rect Hc), Hl.
  replace (t * in_channels l =? 1 * in_channels l) with false.
  - reflexivity.
  - symmetry. apply Nat.eqb_neq. nia.
Qed.

(** ** Reordering *)

Lemma index_select0_ok {A : Type} (buf : list (list A)) (order : list nat) :
  Forall (fun i => i < length buf) order ->
  index_select0 buf order = Ok (select_rows order buf).
Proof.
  intros Hin. unfold index_select0.
  rewrite forallb_true_in; [reflexivity|].
  intros i Hi. rewrite Forall_forall in Hin. apply Nat.ltb_lt. apply Hin. exact Hi.
Qed.

Lemma set_input_buffer_same (l : Layer R) (buf : option (Tensor3 R)) :
  input_buffer l = buf -> set_input_buffer buf l = l.
Proof. destruct l. simpl. intros Hb. subst buf. reflexivity. Qed.

Lemma reorder_buffer_ok (l : Layer R) (new_order : list nat) (buf : Tensor3 R) :
  input_buffer l = Some buf ->
  Forall (fun i => i < length buf) new_order ->
  reorder_buffer new_order l
  = (Ok tt, set_input_buffer (Some (select_rows new_order buf)) l).
Proof.
  intros Hbuf Hin. unfold reorder_buffer. rewrite bind_gets, Hbuf.
  rewrite (index_select0_ok _ Hin). reflexivity.
Qed.

(** X5.  [reorder_buffer] with an index outside the batch of the buffer
    raises a tensor error and leaves the layer as it was: the old buffer is
    kept. *)
Theorem reorder_buffer_out_of_range (l : Layer R) (new_order : list nat)
    (buf : Tensor3 R) :
  input_buffer l = Some buf ->
  Exists (fun i => length buf <= i) new_order ->
  reorder_buffer new_order l = (Raise TensorError, l).
Proof.
  intros Hbuf Hex. unfold reorder_buffer. rewrite bind_gets, Hbuf.
  unfold index_select0.
  replace (forallb (fun i => i <? length buf) new_order) with false;
    [reflexivity|].
  symmetry. induction Hex as [i rest Hi|i rest _ IH]; simpl.
  - replace (i <? length buf) with false; [reflexivity|].
    symmetry. apply Nat.ltb_ge. exact Hi.
  - rewrite IH. apply andb_false_r.
Qed.

(** X6.  Reorderings compose: reordering by [o1] and then by [o2] leaves the
    state of one reordering by the indices [o1[o2[i]]]; and reordering by
    [0, 1, ..., batch - 1] changes nothing. *)
Theorem reorder_buffer_compose (l : Layer R) (o1 o2 : list nat) (buf : Tensor3 R) :
  input_buffer l = Some buf ->
  Forall (fun i => i < length buf) o1 ->
  Forall (fun i => i < length o1) o2 ->
  (_ <- reorder_buffer o1 ;; reorder_buffer o2) l
  = reorder_buffer (map (fun i => nth i o1 0) o2) l /\
  reorder_buffer (seq 0 (length buf)) l = (Ok tt, l).
Proof.
  intros Hbuf H1 H2. split.
  - rewrite (@bind_Ok R _ _ (reorder_buffer o1) _ l _ tt
               (@reorder_buffer_ok l o1 buf Hbuf H1)).
    rewrite (@reorder_buffer_ok
               (set_input_buffer (Some (select_rows o1 buf)) l) o2
               (select_rows o1 buf) eq_refl)
      by (unfold select_rows; rewrite length_map; exact H2).
    rewrite (@reorder_buffer_ok l (map (fun i => nth i o1 0) o2) buf Hbuf).
    + unfold set_input_buffer. simpl. do 3 f_equal.
      unfold select_rows. rewrite map_map. apply map_ext_in.
      intros i Hi. rewrite Forall_forall in H2.
      apply (nth_map_in (fun j => nth j buf []) o1 0 []). apply H2. exact Hi.
    + apply Forall_map. apply Forall_impl with (2 := H2).
      intros i Hi. rewrite Forall_forall in H1. apply H1. apply nth_In. exact Hi.
  - rewrite (@reorder_buffer_ok l (seq 0 (length buf)) buf Hbuf)
      by (apply Forall_forall; intros i Hi; apply in_seq in Hi; lia).
    f_equal. apply set_input_buffer_same. rewrite Hbuf. f_equal.
    unfold select_rows. rewrite <- (map_seq_nth (fun row => row) buf []).
    symmetry. apply map_id.
Qed.

(** ** One incremental step, in full *)

Lemma incremental_forward_ok (b t : nat) (l : Layer R) (input : Tensor3 R) :
  well_formed l -> cache_coherent l -> training l = false ->
  1 < kernel_size l -> shape3 b t (in_channels l) input ->
  1 <= b -> 1 <= t -> buffer_fits b (in_channels l) l ->
  incremental_forward input l
  = (Ok (map (fun v => [v])
           (map (affine (linearized_spec (weight l)) (bias l))
              (map (@concat R)
                 (next_buffer (buffer_or_zeros b (in_channels l) l) input)))),
     set_input_buffer
       (Some (next_buffer (buffer_or_zeros b (in_channels l) l) input))
       (set_linearized_weight (Some (linearized_spec (weight l))) l)).
Proof.
  intros Hwf Hcoh Htr Hk Hin Hb Ht Hfit.
  pose proof (well_formed_bias_fits Hwf) as Hbias.
  pose proof (served_weight_coherent Hwf Hcoh) as Hserved.
  pose proof Hwf as (Hi & Ho & _ & _ & _ & Hw & _ & _).
  destruct (linearize_shaped Hw Ho Hi) as [_ Hlin].
  rewrite (incremental_forward_step Hwf Htr Hk Hin Hb Ht Hfit), Hserved.
  assert (Hnb : shape3 b (kernel_size l) (in_channels l)
                  (next_buffer (buffer_or_zeros b (in_channels l) l) input)).
  { apply (@shape3_next_buffer R b (kernel_size l) (in_channels l) t);
      try assumption; try lia.
    unfold buffer_or_zeros, buffer_fits in *.
    destruct (input_buffer l); [exact Hfit|apply shape3_zeros]. }
  rewrite (@F_linear_shaped R _ (kernel_size l * in_channels l) (out_channels l));
    try assumption.
  - reflexivity.
  - apply Forall_map. destruct Hnb as [_ Hrows].
    apply Forall_impl with (2 := Hrows).
    intros row [Hl Hc]. rewrite (length_concat_rect Hc), Hl. reflexivity.
  - rewrite bias_fits_linearized. exact Hbias.
Qed.

(** X8.  On a well-formed layer in inference mode with kernel width above 1,
    a call of [incremental_forward] on an input of [b] rows of [in_channels]
    channels (with a buffer of matching shape, or none) succeeds, and its
    output has shape [(b, 1, out_channels)]. *)
Theorem incremental_forward_output_shape (b t : nat) (l : Layer R)
    (input : Tensor3 R) :
  well_formed l -> cache_coherent l -> training l = false ->
  1 < kernel_size l -> shape3 b t (in_channels l) input ->
  1 <= b -> 1 <= t -> buffer_fits b (in_channels l) l ->
  exists y,
    fst (incremental_forward input l) = Ok y /\
    shape3 b 1 (out_channels l) y.
Proof.
  intros Hwf Hcoh Htr Hk Hin Hb Ht Hfit.
  rewrite (incremental_forward_ok Hwf Hcoh Htr Hk Hin Hb Ht Hfit).
  pose proof (well_formed_bias_fits Hwf) as Hbias.
  pose proof Hwf as (Hi & Ho & _ & _ & _ & Hw & _ & _).
  destruct (linearize_shaped Hw Ho Hi) as [_ Hlin].
  eexists. split; [reflexivity|]. split.
  - rewrite !length_map. unfold next_buffer. rewrite length_map2.
    destruct Hin as [Hlen _]. rewrite Hlen.
    unfold buffer_or_zeros, buffer_fits in *.
    destruct (input_buffer l) as [buf|].
    + destruct Hfit as [Hbl _]. rewrite Hbl. lia.
    + unfold zeros. rewrite repeat_length. lia.
  - do 3 apply Forall_map. apply Forall_forall. intros row _.
    split; [reflexivity|]. constructor; [|constructor].
    unfold affine. rewrite length_map.
    rewrite length_with_bias by (rewrite bias_fits_linearized; exact Hbias).
    apply Hlin.
Qed.

Lemma map2_map_same {A B C D : Type} (g : A -> B -> C) (f1 : D -> A) (f2 : D -> B)
    (l : list D) :
  map2 g (map f1 l) (map f2 l) = map (fun d => g (f1 d) (f2 d)) l.
Proof.
  induction l as [|d l IH]; [reflexivity|].
  unfold map2 in *. simpl. f_equal. exact IH.
Qed.

Lemma next_buffer_select (b : nat) (order : list nat) (buf x : Tensor3 R) :
  length buf = b -> length x = b -> Forall (fun i => i < b) order ->
  next_buffer (select_rows order buf) (select_rows order x)
  = select_rows order (next_buffer buf x).
Proof.
  intros Hbuf Hx Hord. unfold select_rows at 1 2. unfold next_buffer at 1.
  rewrite map2_map_same. unfold select_rows. apply map_ext_in.
  intros i Hi. rewrite Forall_forall in Hord.
  symmetry. apply (@nth_next_buffer R b); [exact Hbuf|exact Hx|].
  apply Hord. exact Hi.
Qed.

Lemma shape3_select_rows (b t c : nat) (order : list nat) (x : Tensor3 R) :
  shape3 b t c x -> Forall (fun i => i < b) order ->
  shape3 (length order) t c (select_rows order x).
Proof.
  intros Hx Hord. unfold select_rows. split; [apply length_map|].
  apply Forall_map. apply Forall_impl with (2 := Hord).
  intros i Hi. apply (shape3_nth Hx Hi).
Qed.

(** X7.  Reordering commutes with an incremental step: on a layer with a
    buffer, reordering the buffer and then feeding the rows of the input
    picked by the same indices gives the picked rows of the output, and leaves
    the picked rows of the buffer, of the step without reordering. *)
Theorem reorder_commutes_with_step (b t : nat) (l : Layer R) (x buf : Tensor3 R)
    (order : list nat) :
  well_formed l -> cache_coherent l -> training l = false ->
  1 < kernel_size l ->
  input_buffer l = Some buf ->
  shape3 b (kernel_size l) (in_channels l) buf ->
  shape3 b t (in_channels l) x -> 1 <= b -> 1 <= t ->
  order <> [] -> Forall (fun i => i < b) order ->
  exists y nb,
    fst (incremental_forward x l) = Ok y /\
    input_buffer (snd (incremental_forward x l)) = Some nb /\
    fst (incremental_forward (select_rows order x) (snd (reorder_buffer order l)))
    = Ok (select_rows order y) /\
    input_buffer
      (snd (incremental_forward (select_rows order x)
              (snd (reorder_buffer order l))))
    = Some (select_rows order nb).
Proof.
  intros Hwf Hcoh Htr Hk Hbuf Hshape Hx Hb Ht Hne Hord.
  assert (Hfit : buffer_fits b (in_channels l) l)
    by (unfold buffer_fits; rewrite Hbuf; exact Hshape).
  rewrite (incremental_forward_ok Hwf Hcoh Htr Hk Hx Hb Ht Hfit).
  assert (Hbl : length buf = b) by (destruct Hshape; assumption).
  assert (Hxl : length x = b) by (destruct Hx; assumption).
  rewrite (@reorder_buffer_ok l order buf Hbuf)
    by (rewrite Hbl; exact Hord).
  cbn [fst snd].
  assert (Hlen : 1 <= length order)
    by (destruct order; [contradiction Hne; reflexivity|simpl; lia]).
  rewrite (@incremental_forward_ok (length order) t
             (set_input_buffer (Some (select_rows order buf)) l)
             (select_rows order x));
    try assumption.
  2:{ apply (shape3_select_rows Hx Hord). }
  2:{ apply (shape3_select_rows Hshape Hord). }
  cbn [fst snd]. unfold buffer_or_zeros. simpl input_buffer. rewrite Hbuf.
  simpl weight. simpl bias. simpl in_channels.
  rewrite (@next_buffer_select b order buf x Hbl Hxl Hord).
  eexists. eexists. split; [reflexivity|]. split; [reflexivity|].
  split; [|reflexivity].
  f_equal. unfold select_rows. rewrite !map_map. apply map_ext_in.
  intros i Hi. rewrite Forall_forall in Hord.
  assert (Hnl : i < length (next_buffer buf x)).
  { unfold next_buffer. rewrite length_map2, Hbl, Hxl.
    pose proof (Hord i Hi). lia. }
  symmetry.
  apply (nth_map_in
           (fun row => [affine (linearized_spec (weight l)) (bias l) (concat row)])
           (next_buffer buf x) [] []).
  exact Hnl.
Qed.

(** ** The batch mode: purity, shape and too-short inputs *)

(** X9.  [forward] never changes the layer.  With kernel width above 1, on
    an input of shape [(b, t, in_channels)]: when the dilated kernel fits in
    the padded sequence the output has shape
    [(b, (t + 2*padding - dilation*(kernel_size-1) - 1) / stride + 1, out_channels)];
    when it does not fit the call raises a tensor error. *)
Theorem forward_shape_or_error (b t : nat) (l : Layer R) (x : Tensor3 R) :
  snd (forward x l) = l /\
  (well_formed l -> 1 < kernel_size l ->
   shape3 b t (in_channels l) x -> 1 <= b -> 1 <= t ->
   (dilation l * (kernel_size l - 1) + 1 <= t + 2 * padding l ->
    exists y,
      fst (forward x l) = Ok y /\
      shape3 b (conv_out_len t (padding l) (dilation l) (kernel_size l) (stride l))
             (out_channels l) y) /\
   (t + 2 * padding l < dilation l * (kernel_size l - 1) + 1 ->
    fst (forward x l) = Raise TensorError)).
Proof.
  split.
  - apply (@steps_forward R _ (fun l l' => l' = l)).
    + reflexivity.
    + intros l1 l2 l3 H12 H23. congruence.
  - intros Hwf Hk Hx Hb Ht.
    assert (Hfw : forward x l = forward_conv x l).
    { unfold forward. rewrite bind_gets.
      replace (1 <? kernel_size l) with true
        by (symmetry; apply Nat.ltb_lt; exact Hk).
      reflexivity. }
    rewrite Hfw. split.
    + intros Hfit. rewrite (forward_conv_shaped Hwf Hx Hb Ht Hfit).
      pose proof (well_formed_bias_fits Hwf) as Hbias.
      destruct Hwf as (_ & _ & _ & _ & _ & Hw & _ & _).
      eexists. split; [reflexivity|]. split.
      * rewrite length_map. apply Hx.
      * apply Forall_map. apply Forall_forall. intros x_b _.
        split; [rewrite length_map, length_seq; reflexivity|].
        apply Forall_map. apply Forall_forall. intros j _.
        rewrite length_map.
        etransitivity; [apply (length_with_bias _ _ Hbias)|apply Hw].
    + intros Hshort.
      destruct Hwf as (Hi & Ho & _ & _ & _ & Hw & _ & _).
      pose proof (shape3_transpose12 Hx Ht) as HxT.
      unfold forward_conv. rewrite !bind_gets. unfold conv1d.
      rewrite (shape3_size2 Hw Ho Hi), (shape3_size2 HxT Hb Hi).
      replace (dilation l * (kernel_size l - 1) + 1 <=? t + 2 * padding l)
        with false by (symmetry; apply Nat.leb_gt; exact Hshort).
      rewrite andb_false_r. reflexivity.
Qed.

(** ** Misuse of the incremental mode *)

Lemma shape3_shift_buffer (b k c : nat) (buf : Tensor3 R) :
  shape3 b k c buf -> 1 <= k -> shape3 b k c (shift_buffer buf).
Proof.
  intros [Hlen Hrows] Hk. unfold shift_buffer. split.
  - rewrite length_map. exact Hlen.
  - apply Forall_map. apply Forall_impl with (2 := Hrows).
    intros brow [Hl Hc]. split.
    + apply (@length_shift_row _ k brow Hl Hk).
    + unfold shift_row. apply Forall_app. rewrite Forall_forall in Hc.
      split; apply Forall_forall; intros f Hf; apply Hc.
      * rewrite <- (firstn_skipn 1 brow). apply in_or_app. right. exact Hf.
      * rewrite <- (firstn_skipn (length brow - 1) brow).
        apply in_or_app. right. exact Hf.
Qed.

(** X10.  A first call with the wrong number of input channels fails late:
    the buffer is allocated with the channel count of the input and takes
    the frame, the cache is filled, and only then the projection raises a
    tensor error.  The layer is left with that buffer. *)
Theorem incremental_forward_wrong_channels (b t c : nat) (l : Layer R)
    (input : Tensor3 R) :
  well_formed l -> cache_coherent l -> training l = false ->
  1 < kernel_size l -> input_buffer l = None ->
  shape3 b t c input -> c <> in_channels l -> 1 <= b -> 1 <= t ->
  incremental_forward input l
  = (Raise TensorError,
     set_input_buffer
       (Some (next_buffer (zeros b (kernel_size l) c) input))
       (set_linearized_weight (Some (linearized_spec (weight l))) l)).
Proof.
  intros Hwf Hcoh Htr Hk Hnone Hin Hc Hb Ht.
  assert (Hfit : buffer_fits b c l) by (unfold buffer_fits; rewrite Hnone; exact I).
  pose proof (served_weight_coherent Hwf Hcoh) as Hserved.
  pose proof Hwf as (Hi & Ho & _ & _ & _ & Hw & _ & _).
  destruct (linearize_shaped Hw Ho Hi) as [_ Hlin].
  rewrite (incremental_forward_step Hwf Htr Hk Hin Hb Ht Hfit), Hserved.
  unfold buffer_or_zeros. rewrite Hnone.
  assert (Hnb : shape3 b (kernel_size l) c
                  (next_buffer (zeros b (kernel_size l) c) input)).
  { apply (@shape3_next_buffer R b (kernel_size l) c t);
      try assumption; try lia. apply shape3_zeros. }
  unfold F_linear. rewrite (shape2_size1 Hlin Ho).
  destruct Hnb as [Hlen Hrows].
  destruct (next_buffer (zeros b (kernel_size l) c) input) as [|row rest] eqn:E;
    [simpl in Hlen; lia|].
  inversion Hrows as [|? ? Hrow _]; subst. destruct Hrow as [Hl Hcs].
  cbn [map forallb]. rewrite (length_concat_rect Hcs), Hl.
  replace (kernel_size l * c =? kernel_size l * in_channels l) with false.
  - reflexivity.
  - symmetry. apply Nat.eqb_neq. nia.
Qed.

(** X13.  A call whose input has another batch size than the buffer (and
    more than one row) raises a tensor error after the buffer was shifted:
    the layer is left with every row of the buffer moved one frame toward the
    front, its last frame duplicated. *)
Theorem incremental_forward_batch_mismatch (b b' t c : nat) (l : Layer R)
    (input buf : Tensor3 R) :
  well_formed l -> training l = false -> 1 < kernel_size l ->
  input_buffer l = Some buf -> shape3 b (kernel_size l) c buf -> 1 <= b ->
  shape3 b' t c input -> 1 <= t -> 2 <= b' -> b' <> b ->
  incremental_forward input l
  = (Raise TensorError,
     set_input_buffer (Some (shift_buffer buf))
       (set_linearized_weight (Some (served_weight l)) l)).
Proof.
  intros Hwf Htr Hk Hbuf Hshape Hb Hin Ht Hb' Hneq.
  pose proof Hwf as (_ & _ & _ & _ & _ & _ & _ & Hhooks).
  unfold incremental_forward, incremental_body.
  rewrite bind_gets, Htr, bind_hooks_none by exact Hhooks.
  rewrite bind_get_served by exact Hwf.
  rewrite bind_gets. simpl kernel_size.
  replace (1 <? kernel_size l) with true by (symmetry; apply Nat.ltb_lt; exact Hk).
  rewrite bind_assoc, bind_gets. simpl input_buffer. rewrite Hbuf.
  rewrite bind_assoc, bind_modify, bind_assoc.
  rewrite (select_last_shaped Hin Ht), bind_lift_Ok.
  assert (Hfail : assign_last (shift_buffer buf)
                    (map (fun row => last row []) input) = Raise TensorError).
  { assert (Hk1 : 1 <= kernel_size l) by lia.
    pose proof (shape3_shift_buffer Hshape Hk1) as Hsh.
    pose proof (shape2_last_frames Hin Ht) as [Hfl Hfr].
    unfold assign_last.
    rewrite (shape3_size2 Hsh Hb Hk1), broadcast_all_same by exact Hfr.
    unfold broadcast, size0. destruct Hsh as [Hshl _]. rewrite Hshl, Hfl.
    replace (b' =? b) with false by (symmetry; apply Nat.eqb_neq; exact Hneq).
    destruct (map (fun row => last row []) input) as [|f1 [|f2 fr]];
      simpl in Hfl; try lia. reflexivity. }
  rewrite bind_assoc, Hfail, bind_lift_Raise. reflexivity.
Qed.

(** ** The life of the cache *)

Lemma cache_kept_get (lw : Matrix R) :
  steps_in (fun l l' : Layer R =>
              _linearized_weight l = Some lw -> _linearized_weight l' = Some lw)
           _get_linearized_weight.
Proof.
  intros l Hc. unfold _get_linearized_weight. rewrite bind_gets, Hc. exact Hc.
Qed.

Lemma cache_kept_call (lw : Matrix R) (c : call) (l : Layer R) :
  is_backward c = false ->
  _linearized_weight l = Some lw -> _linearized_weight (run_call c l) = Some lw.
Proof.
  pose (Rel := fun l l' : Layer R =>
                 _linearized_weight l = Some lw -> _linearized_weight l' = Some lw).
  assert (Hrefl : forall l1, Rel l1 l1) by (intros l1 H1; exact H1).
  assert (Htrans : forall l1 l2 l3, Rel l1 l2 -> Rel l2 l3 -> Rel l1 l3)
    by (intros l1 l2 l3 H12 H23 H1; apply H23, H12, H1).
  assert (Hbuf : forall buf l1, Rel l1 (set_input_buffer buf l1))
    by (intros buf l1 H1; exact H1).
  assert (Hhooks : forall input, steps_in Rel (run_forward_pre_hooks input))
    by (intros input l1 H1; exact H1).
  destruct c; simpl; intros Hc; try discriminate.
  - apply (@steps_forward R _ Rel Hrefl Htrans).
  - apply (@steps_remove_future_timesteps R Rel Hrefl Htrans).
  - apply (@steps_incremental_forward R _ Rel Hrefl Htrans Hbuf
             (@cache_kept_get lw) Hhooks).
  - apply (@steps_clear_buffer R Rel Hbuf).
  - apply (@steps_reorder_buffer R Rel Hrefl Htrans Hbuf).
  - intros Hl. exact Hl.
  - intros Hl. exact Hl.
Qed.

(** X11.  Only a backward pass empties the cache.  Across any calls without
    one, a filled cache stays as it is and is what the next request is
    served.  This holds on a layer without forward pre-hooks whose parameters
    are left alone; and it holds across changes of the parameters, by
    assignment, in place or by a hook, when the weight has more than one
    input channel and kernel width above 1: the cached tensor is then a
    copy, which no change of the weight reaches, and it is served whatever
    the weight has become. *)
Theorem cache_kept_without_backward (cs : list call) (l : Layer R)
    (lw : Matrix R) :
  forallb (fun c => negb (is_backward c)) cs = true ->
  _linearized_weight l = Some lw ->
  transposed_is_contiguous (weight l) = false \/
  (_forward_pre_hooks l = [] /\
   forallb (fun c => negb (is_update c)) cs = true) ->
  _linearized_weight (run_calls cs l) = Some lw /\
  _get_linearized_weight (run_calls cs l) = (Ok lw, run_calls cs l).
Proof.
  intros Hcs Hl _.
  assert (Hkept : _linearized_weight (run_calls cs l) = Some lw).
  { revert l Hl; induction cs as [|c cs IH]; intros l Hl; [exact Hl|].
    simpl in Hcs. apply andb_true_iff in Hcs. destruct Hcs as [Hc Hcs].
    simpl. apply (IH Hcs). apply cache_kept_call; [|exact Hl].
    destruct (is_backward c); [discriminate|reflexivity]. }
  split; [exact Hkept|].
  unfold _get_linearized_weight. rewrite bind_gets, Hkept. reflexivity.
Qed.

Lemma cache_fill_refl (l : Layer R) : cache_fill l l.
Proof. split; [reflexivity|]. split; [reflexivity|]. left. reflexivity. Qed.

Lemma cache_fill_trans (l1 l2 l3 : Layer R) :
  cache_fill l1 l2 -> cache_fill l2 l3 -> cache_fill l1 l3.
Proof.
  intros (Hw12 & Hb12 & H12) (Hw23 & Hb23 & H23).
  split; [congruence|]. split; [congruence|].
  destruct H23 as [Hsame|[Hnone [lw [Hfill Hlin]]]].
  - rewrite Hsame. exact H12.
  - destruct H12 as [Hsame|[_ [lw' [Hfill' _]]]]; [|congruence].
    right. split; [congruence|]. exists lw. split; [exact Hfill|].
    rewrite <- Hw12. exact Hlin.
Qed.

Lemma cache_fill_buffer (buf : option (Tensor3 R)) (l : Layer R) :
  cache_fill l (set_input_buffer buf l).
Proof. split; [reflexivity|]. split; [reflexivity|]. left. reflexivity. Qed.

Lemma cache_fill_get : steps_in cache_fill _get_linearized_weight.
Proof.
  intros l. unfold _get_linearized_weight. rewrite bind_gets.
  destruct (_linearized_weight l) as [c|] eqn:Hc; [apply cache_fill_refl|].
  rewrite bind_gets. destruct (linearize (weight l)) as [lw|e] eqn:Hlin.
  - rewrite bind_lift_Ok, bind_modify. split; [reflexivity|].
    split; [reflexivity|]. right. split; [exact Hc|].
    exists lw. split; [reflexivity|exact Hlin].
  - apply cache_fill_refl.
Qed.

Lemma incremental_body_fill (input : Tensor3 R) (l : Layer R) :
  cache_fill l (snd (incremental_body input l)).
Proof.
  apply (@steps_incremental_body R _ cache_fill cache_fill_refl cache_fill_trans
           cache_fill_buffer cache_fill_get).
Qed.

Lemma incremental_body_cache (input : Tensor3 R) (l : Layer R) :
  _linearized_weight l = None ->
  _linearized_weight (snd (incremental_body input l))
  = match linearize (weight l) with
    | Ok lw => Some lw
    | Raise _ => None
    end.
Proof.
  intros Hnone.
  assert (Hcoh : cache_coherent l) by (unfold cache_coherent; rewrite Hnone; exact I).
  pose proof (@get_linearized_weight_coherent R _ l Hcoh) as Hget.
  destruct (linearize (weight l)) as [lw|e] eqn:Hlin.
  - assert (Hcoh' : cache_coherent (set_linearized_weight (Some lw) l)) by exact Hlin.
    pose proof (@get_linearized_weight_coherent R _ _ Hcoh') as Hget'.
    simpl weight in Hget'. rewrite Hlin in Hget'.
    assert (Hsame : incremental_body input l
                    = incremental_body input (set_linearized_weight (Some lw) l)).
    { unfold incremental_body.
      rewrite (@bind_Ok R _ _ _get_linearized_weight _ l _ lw Hget).
      rewrite (@bind_Ok R _ _ _get_linearized_weight _ _ _ lw Hget').
      reflexivity. }
    rewrite Hsame.
    destruct (incremental_body_fill input (set_linearized_weight (Some lw) l))
      as (_ & _ & [Hkeep|[Hcontra _]]).
    + exact Hkeep.
    + discriminate.
  - unfold incremental_body.
    rewrite (@bind_Raise R _ _ _get_linearized_weight _ l _ e Hget).
    exact Hnone.
Qed.

(** X12.  In inference mode the forward pre-hooks run before the weight is
    linearized: after the call the layer holds the parameters the hooks left;
    an empty cache is filled with the linearization of the weight the hooks
    left (and stays empty if that fails).  A filled cache is kept as it is
    when the weight has more than one input channel and kernel width above 1
    (the cached tensor is then a copy, which a hook cannot reach through the
    weight): the adjustment of the hooks does not reach the projection. *)
Theorem hooks_run_before_linearization (input : Tensor3 R) (l : Layer R) :
  training l = false ->
  weight (snd (incremental_forward input l)) = p_weight (hooked_params input l) /\
  bias (snd (incremental_forward input l)) = p_bias (hooked_params input l) /\
  (_linearized_weight l = None ->
   _linearized_weight (snd (incremental_forward input l))
   = match linearize (p_weight (hooked_params input l)) with
     | Ok lw => Some lw
     | Raise _ => None
     end) /\
  (forall lw, _linearized_weight l = Some lw ->
   transposed_is_contiguous (weight l) = false ->
   _linearized_weight (snd (incremental_forward input l)) = Some lw).
Proof.
  intros Htr. unfold incremental_forward.
  rewrite bind_gets, Htr. unfold run_forward_pre_hooks. rewrite bind_modify.
  fold (hooked_params input l).
  destruct (incremental_body_fill input (set_params (hooked_params input l) l))
    as (Hw & Hb & Hcache).
  split; [exact Hw|]. split; [exact Hb|]. split.
  - intros Hnone. apply (incremental_body_cache input). exact Hnone.
  - intros lw Hsome _. destruct Hcache as [Hsame|[Hnone _]].
    + rewrite Hsame. exact Hsome.
    + simpl in Hnone. congruence.
Qed.

(** ** Updates in place and the storage of the cache *)








(** ** Incremental decoding against the batch mode, for any padding *)

Section Alignment.
Context {laws : @ScalarLaws R _}.

Lemma seq_offset (d n : nat) : seq d n = map (fun j => d + j) (seq 0 n).
Proof.
  induction d as [|d IH]; simpl.
  - symmetry. apply map_id.
  - rewrite <- seq_shift, IH, map_map. reflexivity.
Qed.

Lemma shape2_recent_frames (t cc kk n : nat) (x_i : Matrix R) :
  shape2 t cc x_i -> n <= t ->
  shape2 kk cc (recent_frames kk cc (map (fun j' => nth j' x_i []) (seq 0 n))).
Proof.
  intros Hx Hn. split; [apply length_recent_frames|].
  apply Forall_forall. intros f Hf.
  assert (Hin : In f (repeat (repeat zero cc) kk
                      ++ map (fun j' => nth j' x_i []) (seq 0 n))).
  { unfold recent_frames in Hf.
    rewrite <- (firstn_skipn (length (map (fun j' => nth j' x_i []) (seq 0 n)))).
    apply in_or_app. right. exact Hf. }
  apply in_app_or in Hin. destruct Hin as [Hz|Hh].
  - apply repeat_spec in Hz. subst f. apply repeat_length.
  - apply in_map_iff in Hh. destruct Hh as [j' [Hf' Hj']]. subst f.
    apply in_seq in Hj'. apply (shape2_nth Hx). lia.
Qed.

(** The entry the convolution with padding [p] reads at step [j], tap [k],
    is the entry of the rolling window after [kk - p + j] incremental
    steps. *)
Lemma padded_window_entry (kk cc t p j k c' : nat) (x_i : Matrix R) :
  shape2 t cc x_i -> p <= kk - 1 -> kk - 1 - p + j < t -> k < kk -> c' < cc ->
  nth (j * 1 + k * 1) (nth c' (map (pad_zeros p) (transpose2 x_i)) []) zero
  = nth c' (nth k (recent_frames kk cc
                     (map (fun j' => nth j' x_i [])
                          (seq 0 (S (kk - 1 - p + j))))) []) zero.
Proof.
  intros Hx Hp Hj Hk Hc.
  assert (Ht : 1 <= t) by lia.
  pose proof (shape2_transpose2 Hx Ht) as [HTlen _].
  rewrite (nth_map_in (pad_zeros p) (transpose2 x_i) [] []) by lia.
  rewrite (nth_transpose2 Hx Ht Hc).
  unfold pad_zeros, recent_frames.
  rewrite nth_skipn, length_map, length_seq.
  replace (j * 1 + k * 1) with (j + k) by lia.
  destruct Hx as [Hlen Hrows].
  destruct (Nat.lt_ge_cases (j + k) p) as [Hlt|Hge].
  - rewrite app_nth1 by (rewrite repeat_length; lia).
    rewrite nth_repeat_lt by lia.
    rewrite app_nth1 by (rewrite repeat_length; lia).
    rewrite nth_repeat_lt by lia.
    symmetry. apply nth_repeat_lt. exact Hc.
  - rewrite app_nth2 by (rewrite repeat_length; lia).
    rewrite repeat_length.
    rewrite app_nth1 by (rewrite length_map; lia).
    rewrite (nth_map_in (fun row => nth c' row zero) x_i [] zero) by lia.
    rewrite app_nth2 by (rewrite repeat_length; lia).
    rewrite repeat_length.
    rewrite (nth_map_seq _ []) by lia.
    replace (S (kk - 1 - p + j) + k - kk) with (j + k - p) by lia.
    reflexivity.
Qed.

Lemma trimmed_forward_shaped (b t : nat) (l : Layer R) (x : Tensor3 R) :
  well_formed l -> 1 < kernel_size l -> padding l <= kernel_size l - 1 ->
  stride l = 1 -> dilation l = 1 ->
  shape3 b t (in_channels l) x -> 1 <= b -> 1 <= t ->
  kernel_size l <= t + 2 * padding l ->
  causal_forward x l
  = (Ok (map (fun x_b =>
            map (fun j =>
                   map (fun wb =>
                          add_bias
                            (conv_at 1 1 j
                               (map (pad_zeros (padding l)) (transpose2 x_b))
                               (fst wb))
                            (snd wb))
                       (with_bias (weight l) (bias l)))
                (seq 0 (t - (kernel_size l - 1 - padding l))))
            x),
     l).
Proof.
  intros Hwf Hk Hp Hs Hd Hx Hb Ht Hfit.
  unfold causal_forward, forward. rewrite bind_assoc, bind_gets.
  replace (1 <? kernel_size l) with true by (symmetry; apply Nat.ltb_lt; exact Hk).
  erewrite bind_Ok
    by (apply (forward_conv_shaped Hwf Hx Hb Ht); rewrite Hd; lia).
  assert (Hlen : conv_out_len t (padding l) (dilation l) (kernel_size l) (stride l)
                 = t + 2 * padding l - (kernel_size l - 1)).
  { unfold conv_out_len. rewrite Hs, Hd, Nat.div_1_r. lia. }
  rewrite Hlen, Hs, Hd.
  unfold remove_future_timesteps. rewrite !bind_gets.
  replace (1 <? kernel_size l) with true by (symmetry; apply Nat.ltb_lt; exact Hk).
  cbn [andb]. destruct (0 <? padding l) eqn:Hpos.
  - unfold ret. f_equal. f_equal.
    unfold drop_last_steps. rewrite map_map. apply map_ext. intros x_b.
    rewrite length_map, length_seq, firstn_map, firstn_seq_le by lia.
    replace (t + 2 * padding l - (kernel_size l - 1) - padding l)
      with (t - (kernel_size l - 1 - padding l)) by lia.
    reflexivity.
  - apply Nat.ltb_ge in Hpos.
    replace (t + 2 * padding l - (kernel_size l - 1))
      with (t - (kernel_size l - 1 - padding l)) by lia.
    reflexivity.
Qed.

(** X14.  With kernel width above 1, stride 1, dilation 1 and any padding up
    to [kernel_size - 1], the kernel fitting in the padded sequence: the
    incremental outputs, concatenated, have shape [(b, t, out_channels)]; the
    trimmed batch output [remove_future_timesteps(forward(x))] is that
    tensor without its first [kernel_size - 1 - padding] time steps; and the
    two modes return the same tensor exactly when the padding is the causal
    one, [kernel_size - 1]. *)
Theorem trimmed_forward_is_shifted_incremental (b t : nat) (l : Layer R)
    (x : Tensor3 R) :
  well_formed l -> cache_coherent l -> training l = false ->
  input_buffer l = None ->
  1 < kernel_size l -> padding l <= kernel_size l - 1 ->
  stride l = 1 -> dilation l = 1 ->
  shape3 b t (in_channels l) x -> 1 <= b -> 1 <= t ->
  kernel_size l <= t + 2 * padding l ->
  exists y,
    fst (incremental_decode x l) = Ok y /\
    shape3 b t (out_channels l) y /\
    fst (causal_forward x l)
    = Ok (map (skipn (kernel_size l - 1 - padding l)) y) /\
    (fst (causal_forward x l) = Ok y <-> padding l = kernel_size l - 1).
Proof.
  intros Hwf Hcoh Htr Hnone Hk Hp Hs Hd Hx Hb Ht Hfit.
  rewrite (incremental_decode_shaped Hwf Hcoh Htr Hnone Hk Hx Hb Ht).
  pose proof (well_formed_bias_fits Hwf) as Hbias.
  pose proof Hwf as (Hi & Ho & _ & _ & _ & Hw & _ & _).
  eexists. split; [reflexivity|].
  match goal with |- shape3 _ _ _ ?y0 /\ _ => set (y := y0) end.
  assert (Hshape : shape3 b t (out_channels l) y).
  { subst y. split; [rewrite length_map, length_seq; reflexivity|].
    apply Forall_map. apply Forall_forall. intros i _.
    split; [rewrite length_map, length_seq; reflexivity|].
    apply Forall_map. apply Forall_forall. intros j _.
    unfold affine. rewrite length_map.
    rewrite length_with_bias by (rewrite bias_fits_linearized; exact Hbias).
    unfold linearized_spec. rewrite length_map. apply Hw. }
  assert (Hshift : fst (causal_forward x l)
                   = Ok (map (skipn (kernel_size l - 1 - padding l)) y)).
  { subst y.
    rewrite (trimmed_forward_shaped Hwf Hk Hp Hs Hd Hx Hb Ht Hfit).
    cbn [fst]. f_equal. rewrite map_map.
    rewrite (map_seq_nth _ x []). destruct Hx as [Hxlen Hxrows] eqn:E. clear E.
    rewrite Hxlen. apply map_ext_in. intros i Hib. apply in_seq in Hib.
    rewrite skipn_map, skipn_seq, (seq_offset (0 + _)), map_map.
    apply map_ext_in. intros j Hj. apply in_seq in Hj.
    unfold affine, linearized_spec. rewrite with_bias_map, map_map.
    apply map_ext_in. intros wb Hwb. cbn [fst snd]. f_equal.
    apply in_with_bias in Hwb.
    assert (Hwo : shape2 (in_channels l) (kernel_size l) (fst wb)).
    { destruct Hw as [_ Hrows]. rewrite Forall_forall in Hrows.
      apply Hrows. exact Hwb. }
    assert (Hxi : shape2 t (in_channels l) (nth i x [])).
    { apply (shape3_nth (conj Hxlen Hxrows)). lia. }
    symmetry.
    apply window_projection with (kk := kernel_size l) (cc := in_channels l).
    - apply (shape2_recent_frames _ Hxi). lia.
    - exact Hwo.
    - rewrite length_map. apply (shape2_transpose2 Hxi Ht).
    - exact Hi.
    - intros c' k Hc' Hk'. cbn [Nat.add].
      apply (@padded_window_entry (kernel_size l) (in_channels l) t);
        try assumption; lia. }
  split; [exact Hshape|]. split; [exact Hshift|].
  rewrite Hshift. clearbody y. split.
  - intros Heq. injection Heq as Heq.
    destruct Hshape as [Hlen Hrows].
    destruct y as [|row rows]; [simpl in Hlen; lia|].
    simpl in Heq. injection Heq as Hrow _.
    inversion Hrows as [|? ? Hr _]. destruct Hr as [Hrlen _].
    apply (f_equal (@length _)) in Hrow. rewrite length_skipn in Hrow. lia.
  - intros Hcausal. f_equal.
    replace (kernel_size l - 1 - padding l) with 0 by lia.
    apply map_id.
Qed.

End Alignment.

(** ** Kernel width 1 over a whole sequence *)

(** X15.  With kernel width 1, [forward] ignores padding, stride and
    dilation: whatever they are, the output has one projected frame per input
    frame, shape [(b, t, out_channels)], and [remove_future_timesteps] returns
    it whole. *)
Theorem forward_kernel1_ignores_padding (b t : nat) (l : Layer R)
    (x : Tensor3 R) :
  well_formed l -> kernel_size l = 1 -> shape3 b t (in_channels l) x ->
  exists y,
    forward x l = (Ok y, l) /\
    causal_forward x l = (Ok y, l) /\
    shape3 b t (out_channels l) y.
Proof.
  intros Hwf Hk Hx.
  assert (Hfw : forward x l = forward_linear x l).
  { unfold forward. rewrite bind_gets, Hk. reflexivity. }
  pose proof (forward_linear_shaped Hwf Hk Hx) as Hlin.
  pose proof (well_formed_bias_fits Hwf) as Hbias.
  eexists. split; [rewrite Hfw; exact Hlin|]. split.
  - unfold causal_forward.
    rewrite (@bind_Ok R _ _ (forward x) _ l l _ (eq_trans Hfw Hlin)).
    unfold remove_future_timesteps. rewrite !bind_gets, Hk. reflexivity.
  - destruct Hwf as (_ & _ & _ & _ & _ & Hw & _ & _).
    destruct Hx as [Hlen Hrows]. split; [rewrite length_map; exact Hlen|].
    apply Forall_map. apply Forall_impl with (2 := Hrows).
    intros row [Hl _]. split; [rewrite length_map; exact Hl|].
    apply Forall_map. apply Forall_forall. intros f _.
    unfold affine. rewrite length_map.
    etransitivity; [apply length_with_bias|].
    + rewrite <- Hbias. unfold bias_fits. destruct (bias l); [|reflexivity].
      rewrite length_map. reflexivity.
    + rewrite length_map. apply Hw.
Qed.



End FurtherProperties.

(** * Instances on the examples *)

#[export] Instance Z_ScalarLaws : @ScalarLaws Z Z_Scalar.
Proof.
  constructor; simpl.
  - exact Z.add_0_l.
  - exact Z.add_comm.
  - exact Z.add_assoc.
  - exact Z.mul_1_l.
  - exact Z.mul_0_l.
  - exact Z.mul_comm.
  - exact Z.mul_assoc.
  - exact Z.mul_add_distr_r.
Qed.

Lemma example_kernel3_well_formed : well_formed example_kernel3.
Proof.
  unfold well_formed, shape3, shape2. simpl.
  repeat split; try lia; try (repeat constructor).
  intros bv Hbv. inversion Hbv. reflexivity.
Qed.

Lemma example_two_channels_well_formed : well_formed example_two_channels.
Proof.
  unfold well_formed, shape3, shape2. simpl.
  repeat split; try lia; try (repeat constructor).
  intros bv Hbv. inversion Hbv. reflexivity.
Qed.

Lemma example_kernel1_well_formed : well_formed example_kernel1.
Proof.
  unfold well_formed, shape3, shape2. simpl.
  repeat split; try lia; try (repeat constructor).
  intros bv Hbv. inversion Hbv. reflexivity.
Qed.

Lemma example_stride2_well_formed : well_formed example_stride2.
Proof.
  unfold well_formed, shape3, shape2. simpl.
  repeat split; try lia; try (repeat constructor).
  intros bv Hbv. inversion Hbv. reflexivity.
Qed.

Lemma example_kernel1_padded_well_formed : well_formed example_kernel1_padded.
Proof.
  unfold well_formed, shape3, shape2. simpl.
  repeat split; try lia; try (repeat constructor).
  intros bv Hbv. inversion Hbv. reflexivity.
Qed.

Lemma example_sequence_shape : shape3 1 4 1 example_sequence.
Proof. unfold shape3, shape2. repeat constructor. Qed.

Lemma example_batch_shape : shape3 2 2 2 example_batch.
Proof. unfold shape3, shape2. repeat constructor. Qed.

(** C1, on the one-channel layer of kernel width 3 with weight [1, 2, 3] and
    the sequence 1, 2, 3, 4: both modes give 3, 8, 14, 20. *)
Lemma incremental_decode_is_causal_forward_witness :
  fst (incremental_decode example_sequence example_kernel3)
  = Ok [[[3]; [8]; [14]; [20]]]%Z /\
  exists y,
    fst (incremental_decode example_sequence example_kernel3) = Ok y /\
    fst (causal_forward example_sequence example_kernel3) = Ok y /\
    shape3 1 4 (out_channels example_kernel3) y.
Proof.
  split; [reflexivity|].
  apply (@incremental_decode_is_causal_forward Z Z_Scalar Z_ScalarLaws 1 4
           example_kernel3 example_sequence).
  - exact example_kernel3_well_formed.
  - exact I.
  - reflexivity.
  - reflexivity.
  - simpl; lia.
  - reflexivity.
  - reflexivity.
  - reflexivity.
  - exact example_sequence_shape.
  - lia.
  - lia.
Defined.

(** C1 as stated fails with stride 2: kernel width 2, causal padding 1, all
    weights 1, on the sequence 1, 2.  The incremental steps give 1, 3; the
    strided convolution gives 1, 2, of which the trimming keeps 1. *)
Lemma incremental_decode_stride2_differs :
  well_formed example_stride2 /\
  cache_coherent example_stride2 /\
  training example_stride2 = false /\
  input_buffer example_stride2 = None /\
  1 < kernel_size example_stride2 /\
  padding example_stride2 = kernel_size example_stride2 - 1 /\
  shape3 1 2 (in_channels example_stride2) [[[1]; [2]]]%Z /\
  fst (incremental_decode [[[1]; [2]]]%Z example_stride2) = Ok [[[1]; [3]]]%Z /\
  fst (causal_forward [[[1]; [2]]]%Z example_stride2) = Ok [[[1]]]%Z /\
  fst (incremental_decode [[[1]; [2]]]%Z example_stride2)
  <> fst (causal_forward [[[1]; [2]]]%Z example_stride2).
Proof.
  split; [exact example_stride2_well_formed|].
  split; [exact I|].
  split; [reflexivity|].
  split; [reflexivity|].
  split; [simpl; lia|].
  split; [reflexivity|].
  split; [unfold shape3, shape2; repeat constructor|].
  split; [reflexivity|].
  split; [reflexivity|].
  discriminate.
Qed.

(** C2, on a two-channel layer of kernel width 1. *)
Lemma forward_kernel1_is_convolution_witness :
  forward example_batch example_kernel1
  = forward_linear example_batch example_kernel1 /\
  exists y,
    forward_linear example_batch example_kernel1 = (Ok y, example_kernel1) /\
    forward_conv example_batch example_kernel1 = (Ok y, example_kernel1).
Proof.
  apply (@forward_kernel1_is_convolution Z Z_Scalar Z_ScalarLaws 2 2
           example_kernel1 example_batch).
  - exact example_kernel1_well_formed.
  - reflexivity.
  - reflexivity.
  - reflexivity.
  - exact example_batch_shape.
  - lia.
  - lia.
Defined.

(** C2 as stated fails with padding: kernel width 1, padding 1, weight 1, on
    the sequence 1, 2, 3, 4.  [forward] returns the four projected frames, the
    convolution path six (the padded positions included). *)
Lemma forward_kernel1_padded_differs :
  well_formed example_kernel1_padded /\
  kernel_size example_kernel1_padded = 1 /\
  shape3 1 4 (in_channels example_kernel1_padded) example_sequence /\
  fst (forward example_sequence example_kernel1_padded)
  = Ok [[[1]; [2]; [3]; [4]]]%Z /\
  fst (forward_conv example_sequence example_kernel1_padded)
  = Ok [[[0]; [1]; [2]; [3]; [4]; [0]]]%Z /\
  fst (forward example_sequence example_kernel1_padded)
  <> fst (forward_conv example_sequence example_kernel1_padded).
Proof.
  split; [exact example_kernel1_padded_well_formed|].
  split; [reflexivity|].
  split; [exact example_sequence_shape|].
  split; [reflexivity|].
  split; [reflexivity|].
  discriminate.
Qed.

(** C3, on the two-channel layer of kernel width 2 and the window of frames
    (1, 2), (3, 4). *)
Lemma linearized_weight_is_convolution_witness :
  fst (_get_linearized_weight example_two_channels)
  = Ok [[1; 3; 2; 4]; [5; 7; 6; 8]]%Z /\
  exists y,
    F_linear [concat [[1; 2]; [3; 4]]%Z]
             (linearized_spec (weight example_two_channels))
             (bias example_two_channels) = Ok [y] /\
    conv1d [transpose2 [[1; 2]; [3; 4]]%Z] (weight example_two_channels)
           (bias example_two_channels) 1 0 1
    = Ok [map (fun v => [v]) y].
Proof.
  destruct (@linearized_weight_is_convolution Z Z_Scalar Z_ScalarLaws
              example_two_channels example_two_channels_well_formed eq_refl)
    as [Hget [_ Hwin]].
  split; [exact Hget|].
  apply Hwin. unfold shape2. simpl. repeat constructor.
Defined.

(** C4, on a layer as constructed (in training mode). *)
Lemma incremental_forward_training_guard_witness :
  incremental_forward example_sequence
    (__init__ 1 1 3 default_kwargs (fun _ _ _ => 1%Z) (fun _ => 0%Z))
  = (Raise InferenceOnly,
     __init__ 1 1 3 default_kwargs (fun _ _ _ => 1%Z) (fun _ => 0%Z)).
Proof.
  apply (proj2 (@incremental_forward_training_guard Z Z_Scalar
                  (__init__ 1 1 3 default_kwargs (fun _ _ _ => 1%Z) (fun _ => 0%Z))
                  example_sequence)).
  reflexivity.
Defined.

(** C5, on a convolution output of six steps and padding 2. *)
Lemma remove_future_timesteps_spec_witness :
  fst (remove_future_timesteps [[[1]; [2]; [3]; [4]; [5]; [6]]]%Z example_kernel3)
  = Ok (map (firstn (6 - padding example_kernel3))
            [[[1]; [2]; [3]; [4]; [5]; [6]]]%Z) /\
  shape3 1 (6 - padding example_kernel3) 1
         (map (firstn (6 - padding example_kernel3))
              [[[1]; [2]; [3]; [4]; [5]; [6]]]%Z).
Proof.
  apply (proj1 (proj2 (@remove_future_timesteps_spec Z example_kernel3
                         [[[1]; [2]; [3]; [4]; [5]; [6]]]%Z))).
  - simpl; lia.
  - simpl; lia.
  - unfold shape3, shape2. repeat constructor.
Defined.

(** C6, on the two-row batch fed to a layer without buffer. *)
Lemma incremental_forward_buffer_update_witness :
  exists nb,
    input_buffer (snd (incremental_forward example_batch example_two_channels))
    = Some nb /\
    shape3 2 (kernel_size example_two_channels) 2 nb /\
    forall i, i < 2 ->
      nth i nb [] = repeat (repeat zero 2) (kernel_size example_two_channels - 1)
                    ++ [last (nth i example_batch []) []].
Proof.
  apply (proj1 (@incremental_forward_buffer_update Z Z_Scalar 2 2 2
                  example_two_channels example_batch
                  example_two_channels_well_formed eq_refl
                  (Nat.lt_succ_diag_r 1) example_batch_shape
                  (Nat.le_succ_diag_r 1) (Nat.le_succ_diag_r 1))).
  reflexivity.
Defined.

(** C7, on the buffer two incremental steps leave, its two rows swapped. *)
Lemma reorder_buffer_spec_witness :
  exists buf',
    reorder_buffer [1; 0]
      (snd (incremental_forward example_batch example_two_channels))
    = (Ok tt,
       set_input_buffer (Some buf')
         (snd (incremental_forward example_batch example_two_channels))) /\
    length buf' = 2 /\
    forall i, i < 2 ->
      nth i buf' [] = nth (nth i [1; 0] 0) [[[0; 0]; [5; 6]]; [[0; 0]; [7; 8]]]%Z [].
Proof.
  apply (proj2 (proj2 (proj2 (@reorder_buffer_spec Z
           (snd (incremental_forward example_batch example_two_channels))
           [1; 0])))).
  - reflexivity.
  - repeat constructor.
Defined.

(** C8, after an incremental step, a reordering and a backward pass. *)
Lemma clear_buffer_forgets_witness :
  fst (incremental_run [[[[1]]]; [[[2]]]]%Z
         (snd (clear_buffer
                 (run_calls [Call_incremental_forward [[[5]]]%Z;
                             Call_reorder_buffer [0];
                             Call_backward]
                            example_kernel3))))
  = fst (incremental_run [[[[1]]]; [[[2]]]]%Z example_kernel3).
Proof.
  apply (@clear_buffer_forgets Z Z_Scalar 1 1 3 (mkKwargs 1 2 1 true)
           (fun _ _ k => Z.of_nat (k + 1)) (fun _ => 0%Z) false
           [Call_incremental_forward [[[5]]]%Z; Call_reorder_buffer [0];
            Call_backward]
           [[[[1]]]; [[[2]]]]%Z).
  reflexivity.
Defined.

(** C9, on a layer that served a linearized weight, went through a backward
    pass and had its parameters updated. *)
Lemma backward_invalidates_cache_witness :
  fst (_get_linearized_weight
         (run_calls [Call_update_parameters [[[7; 8; 9]]]%Z None]
            (run_calls ([Call_train false; Call_incremental_forward [[[5]]]%Z]
                        ++ [Call_backward])
               (__init__ 1 1 3 default_kwargs
                         (fun _ _ k => Z.of_nat (k + 1)) (fun _ => 0%Z)))))
  = linearize [[[7; 8; 9]]]%Z.
Proof.
  apply (proj1 (proj2 (@backward_invalidates_cache Z Z_Scalar 1 1 3 default_kwargs
           (fun _ _ k => Z.of_nat (k + 1)) (fun _ => 0%Z)
           [Call_train false; Call_incremental_forward [[[5]]]%Z]
           [Call_update_parameters [[[7; 8; 9]]]%Z None]))).
  reflexivity.
Defined.

(** C10, on a four-step input to a layer of kernel width 3. *)
Lemma incremental_forward_reads_last_frame_witness :
  incremental_forward example_sequence example_kernel3
  = incremental_forward (last_frame_only example_sequence) example_kernel3.
Proof.
  apply (@incremental_forward_reads_last_frame Z Z_Scalar 1 4 1
           example_kernel3 example_sequence).
  - exact example_kernel3_well_formed.
  - simpl; lia.
  - exact example_sequence_shape.
  - lia.
Defined.

(** * Instances of the further properties *)

Lemma example_same_padding_well_formed : well_formed example_same_padding.
Proof.
  unfold well_formed, shape3, shape2. simpl.
  repeat split; try lia; try (repeat constructor).
  intros bv Hbv. inversion Hbv. reflexivity.
Qed.

Lemma example_buffered_well_formed : well_formed example_buffered.
Proof. exact example_two_channels_well_formed. Qed.

(** X2, across an incremental step, a reordering and a backward pass. *)
Lemma well_formed_run_calls_witness :
  well_formed
    (run_calls [Call_incremental_forward example_sequence;
                Call_reorder_buffer [0]; Call_backward; Call_train true]
               example_kernel3).
Proof.
  apply (@well_formed_run_calls Z Z_Scalar
           [Call_incremental_forward example_sequence;
            Call_reorder_buffer [0]; Call_backward; Call_train true]
           example_kernel3).
  - reflexivity.
  - exact example_kernel3_well_formed.
Defined.


(** X4, on a batch of two two-frame rows. *)
Lemma incremental_forward_kernel1_rejects_frames_witness :
  incremental_forward example_batch example_kernel1
  = (Raise TensorError,
     set_linearized_weight (Some (linearized_spec (weight example_kernel1)))
                           example_kernel1).
Proof.
  apply (@incremental_forward_kernel1_rejects_frames Z Z_Scalar 2 2
           example_kernel1 example_batch).
  - exact example_kernel1_well_formed.
  - exact I.
  - reflexivity.
  - reflexivity.
  - exact example_batch_shape.
  - lia.
  - lia.
Defined.

(** X5, with index 2 on a buffer of two rows. *)
Lemma reorder_buffer_out_of_range_witness :
  reorder_buffer [0; 2] example_buffered = (Raise TensorError, example_buffered).
Proof.
  apply (@reorder_buffer_out_of_range Z example_buffered [0; 2]
           [[[0; 0]; [5; 6]]; [[0; 0]; [7; 8]]]%Z).
  - reflexivity.
  - apply Exists_cons_tl. apply Exists_cons_hd. simpl. lia.
Defined.

(** X6, swapping the two rows and then taking the second row twice. *)
Lemma reorder_buffer_compose_witness :
  (_ <- reorder_buffer [1; 0] ;; reorder_buffer [1; 1]) example_buffered
  = reorder_buffer (map (fun i => nth i [1; 0] 0) [1; 1]) example_buffered /\
  reorder_buffer (seq 0 (length [[[0; 0]; [5; 6]]; [[0; 0]; [7; 8]]]%Z))
                 example_buffered
  = (Ok tt, example_buffered).
Proof.
  apply (@reorder_buffer_compose Z example_buffered [1; 0] [1; 1]
           [[[0; 0]; [5; 6]]; [[0; 0]; [7; 8]]]%Z).
  - reflexivity.
  - repeat constructor.
  - repeat constructor.
Defined.

(** X7, swapping the two rows of the buffer and of the next input. *)
Lemma reorder_commutes_with_step_witness :
  exists y nb,
    fst (incremental_forward example_batch example_buffered) = Ok y /\
    input_buffer (snd (incremental_forward example_batch example_buffered))
    = Some nb /\
    fst (incremental_forward (select_rows [1; 0] example_batch)
           (snd (reorder_buffer [1; 0] example_buffered)))
    = Ok (select_rows [1; 0] y) /\
    input_buffer
      (snd (incremental_forward (select_rows [1; 0] example_batch)
              (snd (reorder_buffer [1; 0] example_buffered))))
    = Some (select_rows [1; 0] nb).
Proof.
  apply (@reorder_commutes_with_step Z Z_Scalar 2 2 example_buffered
           example_batch [[[0; 0]; [5; 6]]; [[0; 0]; [7; 8]]]%Z [1; 0]).
  - exact example_buffered_well_formed.
  - reflexivity.
  - reflexivity.
  - simpl; lia.
  - reflexivity.
  - unfold shape3, shape2. repeat constructor.
  - exact example_batch_shape.
  - lia.
  - lia.
  - discriminate.
  - repeat constructor.
Defined.

(** X8, on the first call of a layer of kernel width 3. *)
Lemma incremental_forward_output_shape_witness :
  exists y,
    fst (incremental_forward example_sequence example_kernel3) = Ok y /\
    shape3 1 1 (out_channels example_kernel3) y.
Proof.
  apply (@incremental_forward_output_shape Z Z_Scalar 1 4 example_kernel3
           example_sequence).
  - exact example_kernel3_well_formed.
  - exact I.
  - reflexivity.
  - simpl; lia.
  - exact example_sequence_shape.
  - lia.
  - lia.
  - exact I.
Defined.

(** X9, on a four-step sequence with kernel width 3 and padding 2: six
    output steps. *)
Lemma forward_shape_or_error_witness :
  exists y,
    fst (forward example_sequence example_kernel3) = Ok y /\
    shape3 1 (conv_out_len 4 (padding example_kernel3) (dilation example_kernel3)
                (kernel_size example_kernel3) (stride example_kernel3))
           (out_channels example_kernel3) y.
Proof.
  destruct (@forward_shape_or_error Z Z_Scalar 1 4 example_kernel3
              example_sequence) as [_ Hshaped].
  assert (Hk : 1 < kernel_size example_kernel3) by (simpl; lia).
  assert (Ht : 1 <= 4) by lia.
  destruct (Hshaped example_kernel3_well_formed Hk example_sequence_shape
              (le_n 1) Ht) as [Hok _].
  apply Hok. simpl; lia.
Defined.

(** X10, feeding one-channel frames to a layer of two input channels. *)
Lemma incremental_forward_wrong_channels_witness :
  incremental_forward example_sequence example_two_channels
  = (Raise TensorError,
     set_input_buffer
       (Some (next_buffer (zeros 1 (kernel_size example_two_channels) 1)
                          example_sequence))
       (set_linearized_weight
          (Some (linearized_spec (weight example_two_channels)))
          example_two_channels)).
Proof.
  apply (@incremental_forward_wrong_channels Z Z_Scalar 1 4 1
           example_two_channels example_sequence).
  - exact example_two_channels_well_formed.
  - exact I.
  - reflexivity.
  - simpl; lia.
  - reflexivity.
  - exact example_sequence_shape.
  - simpl; lia.
  - lia.
  - lia.
Defined.

(** X11, on a weight of two input channels and kernel width 2, across a
    change of the parameters, a clearing of the buffer and an incremental
    step. *)
Lemma cache_kept_without_backward_witness :
  _linearized_weight
    (run_calls [Call_update_parameters
                  [[[9; 9]; [9; 9]]; [[9; 9]; [9; 9]]]%Z None;
                Call_clear_buffer;
                Call_incremental_forward example_batch]
               example_buffered)
  = Some [[1; 3; 2; 4]; [5; 7; 6; 8]]%Z /\
  _get_linearized_weight
    (run_calls [Call_update_parameters
                  [[[9; 9]; [9; 9]]; [[9; 9]; [9; 9]]]%Z None;
                Call_clear_buffer;
                Call_incremental_forward example_batch]
               example_buffered)
  = (Ok [[1; 3; 2; 4]; [5; 7; 6; 8]]%Z,
     run_calls [Call_update_parameters
                  [[[9; 9]; [9; 9]]; [[9; 9]; [9; 9]]]%Z None;
                Call_clear_buffer;
                Call_incremental_forward example_batch]
               example_buffered).
Proof.
  apply (@cache_kept_without_backward Z Z_Scalar
           [Call_update_parameters [[[9; 9]; [9; 9]]; [[9; 9]; [9; 9]]]%Z None;
            Call_clear_buffer;
            Call_incremental_forward example_batch]
           example_buffered [[1; 3; 2; 4]; [5; 7; 6; 8]]%Z).
  - reflexivity.
  - reflexivity.
  - left. reflexivity.
Defined.

(** X12, with a hook that doubles the weight: an empty cache is filled with
    the linearization of the doubled weight [2, 4, 6]; a cache filled from
    the two-channel weight is kept while the weight is doubled. *)
Lemma hooks_run_before_linearization_witness :
  (weight (snd (incremental_forward example_sequence example_hooked))
   = [[[2; 4; 6]]]%Z /\
   _linearized_weight (snd (incremental_forward example_sequence example_hooked))
   = Some [[2; 4; 6]]%Z) /\
  (weight (snd (incremental_forward example_batch example_hooked_cached))
   = [[[2; 4]; [6; 8]]; [[10; 12]; [14; 16]]]%Z /\
   _linearized_weight
     (snd (incremental_forward example_batch example_hooked_cached))
   = Some [[1; 3; 2; 4]; [5; 7; 6; 8]]%Z).
Proof.
  split.
  - destruct (@hooks_run_before_linearization Z Z_Scalar example_sequence
                example_hooked eq_refl) as (Hw & _ & Hcache & _).
    split.
    + rewrite Hw. reflexivity.
    + rewrite (Hcache eq_refl). reflexivity.
  - destruct (@hooks_run_before_linearization Z Z_Scalar example_batch
                example_hooked_cached eq_refl) as (Hw & _ & _ & Hkept).
    split.
    + rewrite Hw. reflexivity.
    + apply Hkept; reflexivity.
Defined.

(** X13, feeding three rows to a layer whose buffer has two. *)
Lemma incremental_forward_batch_mismatch_witness :
  incremental_forward [[[1; 2]]; [[3; 4]]; [[5; 6]]]%Z example_buffered
  = (Raise TensorError,
     set_input_buffer
       (Some (shift_buffer [[[0; 0]; [5; 6]]; [[0; 0]; [7; 8]]]%Z))
       (set_linearized_weight (Some (served_weight example_buffered))
                              example_buffered)).
Proof.
  apply (@incremental_forward_batch_mismatch Z Z_Scalar 2 3 1 2
           example_buffered [[[1; 2]]; [[3; 4]]; [[5; 6]]]%Z
           [[[0; 0]; [5; 6]]; [[0; 0]; [7; 8]]]%Z).
  - exact example_buffered_well_formed.
  - reflexivity.
  - simpl; lia.
  - reflexivity.
  - unfold shape3, shape2. repeat constructor.
  - lia.
  - unfold shape3, shape2. repeat constructor.
  - lia.
  - lia.
  - lia.
Defined.

(** X14, with kernel width 3 and padding 1 on the sequence 1, 2, 3, 4: the
    incremental outputs are 3, 8, 14, 20, the trimmed batch output is
    8, 14, 20. *)
Lemma trimmed_forward_is_shifted_incremental_witness :
  fst (causal_forward example_sequence example_same_padding)
  = Ok [[[8]; [14]; [20]]]%Z /\
  exists y,
    fst (incremental_decode example_sequence example_same_padding) = Ok y /\
    shape3 1 4 (out_channels example_same_padding) y /\
    fst (causal_forward example_sequence example_same_padding)
    = Ok (map (skipn (kernel_size example_same_padding - 1
                      - padding example_same_padding)) y) /\
    (fst (causal_forward example_sequence example_same_padding) = Ok y <->
     padding example_same_padding = kernel_size example_same_padding - 1).
Proof.
  split; [reflexivity|].
  apply (@trimmed_forward_is_shifted_incremental Z Z_Scalar Z_ScalarLaws 1 4
           example_same_padding example_sequence).
  - exact example_same_padding_well_formed.
  - exact I.
  - reflexivity.
  - reflexivity.
  - simpl; lia.
  - simpl; lia.
  - reflexivity.
  - reflexivity.
  - exact example_sequence_shape.
  - lia.
  - lia.
  - simpl; lia.
Defined.

(** X15, with kernel width 1 and padding 1: four frames in, four out. *)
Lemma forward_kernel1_ignores_padding_witness :
  exists y,
    forward example_sequence example_kernel1_padded
    = (Ok y, example_kernel1_padded) /\
    causal_forward example_sequence example_kernel1_padded
    = (Ok y, example_kernel1_padded) /\
    shape3 1 4 (out_channels example_kernel1_padded) y.
Proof.
  apply (@forward_kernel1_ignores_padding Z Z_Scalar 1 4
           example_kernel1_padded example_sequence).
  - exact example_kernel1_padded_well_formed.
  - reflexivity.
  - exact example_sequence_shape.
Defined.


